(** * The performance layer of the AI coding agent

    A shallow embedding of [ai_coding_agent/core/performance.py]: the
    [LRUCache] (a dictionary of entries, an access-order list and a memory
    counter), the [PerformanceMonitor] (a bounded list of samples), the
    [timed_cache] decorator, the [BatchProcessor] and the
    [AsyncPoolExecutor].

    Conventions of the embedding.
    - A Python [int] is a [Z]; [len] of a container is [Z.of_nat] of its
      size.
    - A [datetime] is a [Z], a number of microseconds; [timedelta(seconds=n)]
      is [n * 1000000].  Each method reads the clock once and receives
      that reading as its argument [now]; the source's readings inside one
      call differ only by the time the call itself takes.  A [ttl] is a
      whole number of seconds, as its annotation says.
    - A true division [a / b] of two integers is the exact quotient in [Qc];
      the source computes its nearest double.
    - A dictionary keyed by strings is a [gmap string _] when only its
      content matters and an association list when it is a literal that is
      returned to the caller.
    - The lock of every class serialises its methods, so each method is one
      function from the state before the call to the state after it. *)

From Stdlib Require Import QArith Qcanon.
From stdpp Require Import gmap strings list fin_maps numbers.

Set Warnings "-register-all".
Local Open Scope Z_scope.

(** ** Python values *)

(** The values the cache stores, by the cases [_estimate_size] tells
    apart.  A string is its list of code points; an object of any other
    class is known by what [str] makes of it ([None] when [str] raises). *)
Inductive pyobj : Type :=
| PyNone
| PyBool (b : bool)
| PyInt (n : Z)
| PyFloat (significand exponent : Z)
| PyStr (s : list N)
| PyList (items : list pyobj)
| PyTuple (items : list pyobj)
| PyDict (items : list (pyobj * pyobj))
| PyObject (repr : option (list N)).

(** [value is None] *)
Definition is_None (v : pyobj) : bool :=
  match v with PyNone => true | _ => false end.

(** Bytes of one code point in UTF-8; a lone surrogate cannot be encoded
    ([UnicodeEncodeError]). *)
Definition utf8_width (cp : N) : option Z :=
  if (cp <? 0x80)%N then Some 1
  else if (cp <? 0x800)%N then Some 2
  else if (cp <? 0xD800)%N then Some 3
  else if (cp <? 0xE000)%N then None
  else if (cp <? 0x10000)%N then Some 3
  else Some 4.

(** [len(s.encode('utf-8'))], or [None] when the encoding raises. *)
Fixpoint utf8_len (s : list N) : option Z :=
  match s with
  | [] => Some 0
  | cp :: s' =>
      match utf8_width cp, utf8_len s' with
      | Some w, Some n => Some (w + n)
      | _, _ => None
      end
  end.

(** [sum] of a list of integers. *)
Definition py_sum (l : list Z) : Z := foldr Z.add 0 l.

(** [str(None)] is the four letters of "None". *)
Definition str_None : list N := [78; 111; 110; 101]%N.

(** [LRUCache._estimate_size].  Every call has its own [try], so a failure
    inside an element costs that element the default of 1024 and the sum
    goes on.  [bool] is a subclass of [int]; [None] falls to the last
    branch like any other object.  Values nested deeper than the
    interpreter's recursion limit are not modelled. *)
Fixpoint _estimate_size (obj : pyobj) : Z :=
  match obj with
  | PyStr s =>
      match utf8_len s with Some n => n | None => 1024 end
  | PyBool _ | PyInt _ | PyFloat _ _ => 8
  | PyList items | PyTuple items =>
      py_sum (map _estimate_size items) + 64
  | PyDict items =>
      py_sum (map (fun kv => let '(k, v) := kv in
                             _estimate_size k + _estimate_size v) items) + 64
  | PyNone =>
      match utf8_len str_None with Some n => n + 100 | None => 1024 end
  | PyObject (Some s) =>
      match utf8_len s with Some n => n + 100 | None => 1024 end
  | PyObject None => 1024
  end.

(** ** The cache *)

Record CacheEntry : Type := mkEntry {
  data : pyobj;
  created_at : Z;
  last_accessed : Z;
  access_count : Z;
  size_bytes : Z;
  expires_at : option Z
}.

Record LRUCache : Type := mkCache {
  max_size : Z;
  max_memory_bytes : Z;
  default_ttl : Z;
  _cache : gmap string CacheEntry;
  _access_order : list string;
  _current_memory : Z;
  hits : Z;
  misses : Z;
  evictions : Z
}.

(** [LRUCache.__init__] *)
Definition LRUCache_init (max_size max_memory_mb default_ttl : Z) : LRUCache :=
  {| max_size := max_size;
     max_memory_bytes := max_memory_mb * 1024 * 1024;
     default_ttl := default_ttl;
     _cache := ∅;
     _access_order := [];
     _current_memory := 0;
     hits := 0; misses := 0; evictions := 0 |}.

(** Assignments to one attribute. *)
Definition with_cache (c : LRUCache) (m : gmap string CacheEntry) : LRUCache :=
  mkCache (max_size c) (max_memory_bytes c) (default_ttl c) m
          (_access_order c) (_current_memory c) (hits c) (misses c) (evictions c).
Definition with_access_order (c : LRUCache) (l : list string) : LRUCache :=
  mkCache (max_size c) (max_memory_bytes c) (default_ttl c) (_cache c)
          l (_current_memory c) (hits c) (misses c) (evictions c).
Definition with_current_memory (c : LRUCache) (n : Z) : LRUCache :=
  mkCache (max_size c) (max_memory_bytes c) (default_ttl c) (_cache c)
          (_access_order c) n (hits c) (misses c) (evictions c).
Definition with_hits (c : LRUCache) (n : Z) : LRUCache :=
  mkCache (max_size c) (max_memory_bytes c) (default_ttl c) (_cache c)
          (_access_order c) (_current_memory c) n (misses c) (evictions c).
Definition with_misses (c : LRUCache) (n : Z) : LRUCache :=
  mkCache (max_size c) (max_memory_bytes c) (default_ttl c) (_cache c)
          (_access_order c) (_current_memory c) (hits c) n (evictions c).
Definition with_evictions (c : LRUCache) (n : Z) : LRUCache :=
  mkCache (max_size c) (max_memory_bytes c) (default_ttl c) (_cache c)
          (_access_order c) (_current_memory c) (hits c) (misses c) n.

(** [l.remove(x)] for an [x] that occurs in [l]: the first occurrence goes.
    The source calls it only under [if x in l]. *)
Fixpoint list_remove_first (x : string) (l : list string) : list string :=
  match l with
  | [] => []
  | y :: l' => if decide (x = y) then l' else y :: list_remove_first x l'
  end.

(** [timedelta(seconds=n)] in microseconds. *)
Definition timedelta_seconds (n : Z) : Z := n * 1000000.

(** [entry.expires_at and now > entry.expires_at]: a [datetime] is always
    true, so the first conjunct asks whether an expiry is set. *)
Definition is_expired (entry : CacheEntry) (now : Z) : bool :=
  match expires_at entry with
  | Some t => bool_decide (t < now)
  | None => false
  end.

(** [LRUCache._remove_entry] *)
Definition _remove_entry (c : LRUCache) (key : string) : LRUCache :=
  let c1 :=
    match _cache c !! key with
    | Some entry =>
        with_cache (with_current_memory c (_current_memory c - size_bytes entry))
                   (delete key (_cache c))
    | None => c
    end in
  if bool_decide (key ∈ _access_order c1)
  then with_access_order c1 (list_remove_first key (_access_order c1))
  else c1.

(** [LRUCache.get]: the returned value and the cache after the call.  A miss
    returns [None], which is a value like any other. *)
Definition LRUCache_get (c : LRUCache) (key : string) (now : Z) : pyobj * LRUCache :=
  match _cache c !! key with
  | None => (PyNone, with_misses c (misses c + 1))
  | Some entry =>
      if is_expired entry now then
        let c1 := _remove_entry c key in
        (PyNone, with_misses c1 (misses c1 + 1))
      else
        let entry' := mkEntry (data entry) (created_at entry) now
                              (access_count entry + 1) (size_bytes entry)
                              (expires_at entry) in
        let c1 := with_cache c (<[key := entry']> (_cache c)) in
        let order :=
          if bool_decide (key ∈ _access_order c1)
          then list_remove_first key (_access_order c1)
          else _access_order c1 in
        let c2 := with_access_order c1 (order ++ [key]) in
        (data entry', with_hits c2 (hits c2 + 1))
  end.

(** The guard of the eviction loop of [set]. *)
Definition needs_space (c : LRUCache) (nbytes : Z) : bool :=
  bool_decide (max_size c ≤ Z.of_nat (size (_cache c)))
  || bool_decide (max_memory_bytes c < _current_memory c + nbytes).

(** The eviction loop of [set].  Every turn pops the head of the access
    order, so the loop makes at most as many turns as that list is long;
    [fuel] counts the turns left, and [make_space_exit] and
    [make_space_fuel] show that the length of the list is fuel enough. *)
Fixpoint make_space (fuel : nat) (c : LRUCache) (nbytes : Z) : LRUCache :=
  match fuel with
  | O => c
  | S fuel' =>
      if needs_space c nbytes then
        match _access_order c with
        | [] => c
        | oldest_key :: rest =>
            let c1 := _remove_entry (with_access_order c rest) oldest_key in
            make_space fuel' (with_evictions c1 (evictions c1 + 1)) nbytes
        end
      else c
  end.

(** The [expires_at] that [set] gives a new entry. *)
Definition new_expiry (c : LRUCache) (ttl : option Z) (now : Z) : option Z :=
  match ttl with
  | Some t => Some (now + timedelta_seconds t)
  | None =>
      if bool_decide (0 < default_ttl c)
      then Some (now + timedelta_seconds (default_ttl c))
      else None
  end.

(** [LRUCache.set] *)
Definition LRUCache_set (c : LRUCache) (key : string) (value : pyobj)
    (ttl : option Z) (now : Z) : LRUCache :=
  let nbytes := _estimate_size value in
  let c1 := if bool_decide (is_Some (_cache c !! key))
            then _remove_entry c key else c in
  let c2 := make_space (length (_access_order c1)) c1 nbytes in
  let entry := mkEntry value now now 0 nbytes (new_expiry c2 ttl now) in
  let c3 := with_cache c2 (<[key := entry]> (_cache c2)) in
  let c4 := with_access_order c3 (_access_order c3 ++ [key]) in
  with_current_memory c4 (_current_memory c4 + nbytes).

(** [LRUCache.delete] *)
Definition LRUCache_delete (c : LRUCache) (key : string) : bool * LRUCache :=
  if bool_decide (is_Some (_cache c !! key))
  then (true, _remove_entry c key)
  else (false, c).

(** [LRUCache.clear] *)
Definition LRUCache_clear (c : LRUCache) : LRUCache :=
  with_current_memory (with_access_order (with_cache c ∅) []) 0.

(** [LRUCache.cleanup_expired]: the keys of the expired entries are listed
    first, [[key for key, entry in items if ...]], and removed one by one
    afterwards. *)
Definition LRUCache_cleanup_expired (c : LRUCache) (now : Z) : Z * LRUCache :=
  let expired_keys :=
    fst <$> filter (fun kv => is_expired kv.2 now = true) (map_to_list (_cache c)) in
  (Z.of_nat (length expired_keys), foldl _remove_entry c expired_keys).

(** A number of a statistics dictionary: an [int], or the [float] a true
    division returns. *)
Inductive pynum : Type :=
| PyI (n : Z)
| PyF (q : Qc).

(** The number as a rational; [0 == 0.0] in Python. *)
Definition num_value (x : pynum) : Qc :=
  match x with PyI n => Qc_of_Z n | PyF q => q end.

(** [a / b] on integers *)
Definition true_div (a b : Z) : Qc := (Qc_of_Z a / Qc_of_Z b)%Qc.

(** [d.get(key)] on a dictionary literal *)
Fixpoint dict_get {A} (d : list (string * A)) (key : string) : option A :=
  match d with
  | [] => None
  | (k, v) :: d' => if decide (k = key) then Some v else dict_get d' key
  end.

(** [LRUCache.get_stats] *)
Definition get_stats (c : LRUCache) : list (string * pynum) :=
  let total_requests := hits c + misses c in
  let hit_rate :=
    if bool_decide (0 < total_requests)
    then PyF (true_div (hits c) total_requests)
    else PyI 0 in
  [ ("size", PyI (Z.of_nat (size (_cache c))));
    ("max_size", PyI (max_size c));
    ("memory_used_mb", PyF (true_div (_current_memory c) (1024 * 1024)));
    ("max_memory_mb", PyF (true_div (max_memory_bytes c) (1024 * 1024)));
    ("hits", PyI (hits c));
    ("misses", PyI (misses c));
    ("hit_rate", hit_rate);
    ("evictions", PyI (evictions c)) ]%string.

(** ** Runs of cache operations *)

Inductive cache_op : Type :=
| OpGet (key : string) (now : Z)
| OpSet (key : string) (value : pyobj) (ttl : option Z) (now : Z)
| OpDelete (key : string)
| OpClear
| OpCleanupExpired (now : Z).

Definition run_op (c : LRUCache) (op : cache_op) : LRUCache :=
  match op with
  | OpGet key now => (LRUCache_get c key now).2
  | OpSet key value ttl now => LRUCache_set c key value ttl now
  | OpDelete key => (LRUCache_delete c key).2
  | OpClear => LRUCache_clear c
  | OpCleanupExpired now => (LRUCache_cleanup_expired c now).2
  end.

Definition run_ops (c : LRUCache) (ops : list cache_op) : LRUCache :=
  foldl run_op c ops.

Definition is_get (op : cache_op) : bool :=
  match op with OpGet _ _ => true | _ => false end.

(** A call of [set]: key, value, ttl and the clock. *)
Definition set_call : Type := string * pyobj * option Z * Z.

Definition run_sets (c : LRUCache) (calls : list set_call) : LRUCache :=
  foldl (fun c '(key, value, ttl, now) => LRUCache_set c key value ttl now) c calls.

(** ** What the cache keeps true *)

(** The sum of [size_bytes] over the entries of the dictionary. *)
Definition total_size (m : gmap string CacheEntry) : Z :=
  map_fold (fun _ entry acc => size_bytes entry + acc) 0 m.

(** The memory counter is the sum of the sizes of the stored entries, and
    no stored size is negative. *)
Record memory_ok (c : LRUCache) : Prop := {
  mem_sum : _current_memory c = total_size (_cache c);
  mem_sizes : ∀ k e, _cache c !! k = Some e → 0 ≤ size_bytes e
}.

(** The access order lists the keys of the dictionary, each once. *)
Record order_ok (c : LRUCache) : Prop := {
  order_nodup : NoDup (_access_order c);
  order_keys : ∀ k, k ∈ _access_order c ↔ is_Some (_cache c !! k)
}.

(** The bound of the cache: both limits hold, or a single entry is stored
    whose own size is over the memory budget. *)
Definition within_limits (c : LRUCache) : Prop :=
  Z.of_nat (size (_cache c)) ≤ max_size c
  ∧ _current_memory c ≤ max_memory_bytes c.

Definition single_oversized (c : LRUCache) : Prop :=
  ∃ k e, _cache c = {[ k := e ]} ∧ max_memory_bytes c < size_bytes e.

Definition cache_bound (c : LRUCache) : Prop :=
  within_limits c ∨ single_oversized c.

(** ** The performance monitor *)

Record PerformanceMetrics : Type := mkMetrics {
  operation_name : string;
  duration : Qc;
  memory_used : Z;
  cache_hit : bool;
  timestamp : Z;
  metadata : list (string * pyobj)
}.

Record PerformanceMonitor : Type := mkMonitor {
  max_metrics : Z;
  metrics : list PerformanceMetrics
}.

(** [PerformanceMonitor.__init__] *)
Definition PerformanceMonitor_init (max_metrics : Z) : PerformanceMonitor :=
  mkMonitor max_metrics [].

(** The slice [l[start:]]: a negative [start] counts from the end, and
    either way the index is clamped to the list.  [-0] is [0], so
    [l[-0:]] is the whole list. *)
Definition py_slice_from {A} (l : list A) (start : Z) : list A :=
  let n := Z.of_nat (length l) in
  let i := if bool_decide (start < 0) then Z.max (n + start) 0 else Z.min start n in
  drop (Z.to_nat i) l.

(** [PerformanceMonitor.record_operation]; [metadata] are the keyword
    arguments, [now] the clock. *)
Definition record_operation (pm : PerformanceMonitor) (operation_name : string)
    (duration : Qc) (memory_used : Z) (cache_hit : bool)
    (metadata : list (string * pyobj)) (now : Z) : PerformanceMonitor :=
  let metric := mkMetrics operation_name duration memory_used cache_hit now metadata in
  let appended := metrics pm ++ [metric] in
  if bool_decide (max_metrics pm < Z.of_nat (length appended))
  then mkMonitor (max_metrics pm) (py_slice_from appended (- max_metrics pm))
  else mkMonitor (max_metrics pm) appended.

(** Calls of [record_operation] in a row, each given by the sample it is
    to record: its arguments and the clock at the call. *)
Definition record_all (pm : PerformanceMonitor) (samples : list PerformanceMetrics)
    : PerformanceMonitor :=
  foldl (fun pm m =>
           record_operation pm (operation_name m) (duration m) (memory_used m)
                            (cache_hit m) (metadata m) (timestamp m))
        pm samples.

(** A value of the dictionary of [get_overall_stats]. *)
Inductive statval : Type :=
| StatNum (x : pynum)
| StatNames (names : list string).

(** The keys of the dictionary [operations], in the order of their first
    insertion. *)
Fixpoint operation_keys (seen : list string) (samples : list PerformanceMetrics)
    : list string :=
  match samples with
  | [] => seen
  | m :: rest =>
      if bool_decide (operation_name m ∈ seen)
      then operation_keys seen rest
      else operation_keys (seen ++ [operation_name m]) rest
  end.

Definition sum_Qc (l : list Qc) : Qc := foldr Qcplus (Qc_of_Z 0) l.

(** [PerformanceMonitor.get_overall_stats] *)
Definition get_overall_stats (pm : PerformanceMonitor) : list (string * statval) :=
  match metrics pm with
  | [] => [("total_operations", StatNum (PyI 0))]%string
  | _ :: _ =>
      let n := Z.of_nat (length (metrics pm)) in
      let operations := operation_keys [] (metrics pm) in
      let total_duration := sum_Qc (duration <$> metrics pm) in
      let total_memory := py_sum (memory_used <$> metrics pm) in
      let total_cache_hits := Z.of_nat (length (filter (fun m => cache_hit m = true) (metrics pm))) in
      [ ("total_operations", StatNum (PyI n));
        ("unique_operations", StatNum (PyI (Z.of_nat (length operations))));
        ("total_duration", StatNum (PyF total_duration));
        ("avg_duration", StatNum (PyF (total_duration / Qc_of_Z n)%Qc));
        ("total_memory", StatNum (PyI total_memory));
        ("avg_memory", StatNum (PyF (true_div total_memory n)));
        ("cache_hit_rate", StatNum (PyF (true_div total_cache_hits n)));
        ("operations", StatNames operations) ]%string
  end.

(** ** The [timed_cache] decorator *)

Section timed_cache.
(** The decorated function, from its arguments to its result, and the key
    the wrapper derives from the arguments (an MD5 digest of their
    printed form). *)
Variable func : pyobj → pyobj.
Variable cache_key : pyobj → string.

(** The cache the decorator creates: [LRUCache(max_size=max_size,
    default_ttl=ttl)], with the default memory budget of 100 MB. *)
Definition timed_cache_new (ttl max_size : Z) : LRUCache :=
  LRUCache_init max_size 100 ttl.

(** One call of the wrapper: its result, the cache after it, and whether
    [func] was called.  The clock is read by [get] and again by [set]. *)
Definition wrapper (cache : LRUCache) (args : pyobj) (t_get t_set : Z)
    : pyobj * LRUCache * bool :=
  let key := cache_key args in
  let '(result, cache1) := LRUCache_get cache key t_get in
  if negb (is_None result) then (result, cache1, false)
  else
    let result := func args in
    (result, LRUCache_set cache1 key result None t_set, true).

(** Calls of the wrapper in a row; the number counts the calls of
    [func]. *)
Fixpoint wrapper_calls (cache : LRUCache) (calls : list (pyobj * Z * Z))
    : LRUCache * nat :=
  match calls with
  | [] => (cache, O)
  | (args, t_get, t_set) :: rest =>
      let '(_, cache1, called) := wrapper cache args t_get t_set in
      let '(cache2, n) := wrapper_calls cache1 rest in
      (cache2, if called then S n else n)
  end.
End timed_cache.

(** ** The batch processor *)

(** An instance of [Exception]: what a callback raises as an error and
    what [except Exception] catches.  A [BaseException] that is no
    [Exception] (a cancellation, an exit of the interpreter) is no error of
    the callback and is not modelled. *)
Inductive pyexc : Type :=
| InvalidStateError
| UserException (name : string) (message : list N).

(** What awaiting a callback gives: its result or the exception it
    raises. *)
Inductive outcome : Type :=
| Returns (v : pyobj)
| Raises (e : pyexc).

(** The state of an [asyncio.Future]. *)
Inductive future_state : Type :=
| Pending
| Cancelled
| FinishedResult (v : pyobj)
| FinishedException (e : pyexc).

(** The futures that exist, each known by its position. *)
Notation future_heap := (list future_state).

(** [asyncio.Future()] *)
Definition new_future (heap : future_heap) : future_heap * nat :=
  (heap ++ [Pending], length heap).

(** [future.set_result(v)] and [future.set_exception(e)]: a future is
    written once, a second write raises [InvalidStateError]. *)
Definition set_result (heap : future_heap) (fut : nat) (v : pyobj)
    : future_heap + pyexc :=
  match heap !! fut with
  | Some Pending => inl (<[fut := FinishedResult v]> heap)
  | _ => inr InvalidStateError
  end.

Definition set_exception (heap : future_heap) (fut : nat) (e : pyexc)
    : future_heap + pyexc :=
  match heap !! fut with
  | Some Pending => inl (<[fut := FinishedException e]> heap)
  | _ => inr InvalidStateError
  end.

(** An element of [pending_requests]: the dictionary with the keys
    ['data'], ['callback'] and ['future']. *)
Record request : Type := mkRequest {
  request_data : pyobj;
  request_callback : pyobj → outcome;
  request_future : nat
}.

Record BatchProcessor : Type := mkBatch {
  batch_size : Z;
  pending_requests : list request;
  _processing : bool
}.

(** [BatchProcessor.add_request] up to its [await future]: the processor
    and the futures after the request is queued, the future the caller
    awaits, and whether a [_process_batch] task is created. *)
Definition add_request (bp : BatchProcessor) (heap : future_heap)
    (data : pyobj) (callback : pyobj → outcome)
    : BatchProcessor * future_heap * nat * bool :=
  let '(heap1, future) := new_future heap in
  let queue := pending_requests bp ++ [mkRequest data callback future] in
  (mkBatch (batch_size bp) queue (_processing bp), heap1, future,
   bool_decide (batch_size bp ≤ Z.of_nat (length queue)) || negb (_processing bp)).

(** The snapshot of [_process_batch]: [batch = pending_requests.copy()],
    then [pending_requests.clear()]. *)
Definition take_snapshot (bp : BatchProcessor) : list request * BatchProcessor :=
  (pending_requests bp, mkBatch (batch_size bp) [] (_processing bp)).

(** [BatchProcessor._process_single_request]: the futures after the task
    and the exception that escapes it, if one does.  [set_result] stands
    inside the [try], so its failure is handled like the callback's. *)
Definition _process_single_request (heap : future_heap) (r : request)
    : future_heap * option pyexc :=
  let attempt :=
    match request_callback r (request_data r) with
    | Returns result => set_result heap (request_future r) result
    | Raises e => inr e
    end in
  match attempt with
  | inl heap1 => (heap1, None)
  | inr e =>
      match set_exception heap (request_future r) e with
      | inl heap1 => (heap1, None)
      | inr e1 => (heap, Some e1)
      end
  end.

(** The tasks of one batch, in the order in which their callbacks finish;
    the exceptions are those [gather] sees. *)
Fixpoint run_tasks (heap : future_heap) (finishing : list request)
    : future_heap * list pyexc :=
  match finishing with
  | [] => (heap, [])
  | r :: rest =>
      let '(heap1, escaped) := _process_single_request heap r in
      let '(heap2, others) := run_tasks heap1 rest in
      (heap2, match escaped with Some e => e :: others | None => others end)
  end.

(** [BatchProcessor._process_batch] from its snapshot on.  The wait before
    the snapshot only lets time pass, and requests that arrive meanwhile
    are in the queue when the snapshot is taken.  [finishing] lists the
    requests of the snapshot in the order in which their callbacks finish;
    the result has the processor and the futures after the call and the
    exception that [gather] raises, if a task let one escape.  The
    [finally] resets [_processing] on every path that set it. *)
Definition _process_batch (bp : BatchProcessor) (heap : future_heap)
    (finishing : list request) : BatchProcessor * future_heap * option pyexc :=
  if _processing bp then (bp, heap, None)
  else
    let '(batch, bp1) := take_snapshot (mkBatch (batch_size bp) (pending_requests bp) true) in
    match batch with
    | [] => (mkBatch (batch_size bp1) (pending_requests bp1) false, heap, None)
    | _ :: _ =>
        let '(heap1, escaped) := run_tasks heap finishing in
        (mkBatch (batch_size bp1) (pending_requests bp1) false, heap1, head escaped)
    end.

(** The state a future takes from the outcome of its own callback. *)
Definition resolution (o : outcome) : future_state :=
  match o with
  | Returns v => FinishedResult v
  | Raises e => FinishedException e
  end.

(** The futures of a batch are distinct and none is written yet. *)
Definition batch_unresolved (heap : future_heap) (batch : list request) : Prop :=
  NoDup (request_future <$> batch)
  ∧ ∀ r, r ∈ batch → heap !! request_future r = Some Pending.

(** Requests queued one after the other on a processor. *)
Fixpoint add_requests (bp : BatchProcessor) (heap : future_heap)
    (submitted : list (pyobj * (pyobj → outcome))) : BatchProcessor * future_heap :=
  match submitted with
  | [] => (bp, heap)
  | (data, callback) :: rest =>
      let '(bp1, heap1, _, _) := add_request bp heap data callback in
      add_requests bp1 heap1 rest
  end.

(** ** The pool executor *)

(** Where a call of [submit] stands: waiting for the semaphore, awaiting
    the task it created (the task's body is executing), or returned with
    the task's outcome. *)
Inductive submit_state : Type :=
| AtAcquire
| AwaitingTask
| Finished (o : outcome).

(** The executor: the counter of the semaphore, the set of active tasks,
    and the calls of [submit] made so far; a call and its task are known by
    the position of the call. *)
Record AsyncPoolExecutor : Type := mkPool {
  max_workers : Z;
  semaphore : Z;
  active_tasks : gset nat;
  submits : list submit_state
}.

(** [AsyncPoolExecutor.__init__]; [asyncio.Semaphore] refuses a negative
    initial value with [ValueError]. *)
Definition AsyncPoolExecutor_init (max_workers : Z) : option AsyncPoolExecutor :=
  if bool_decide (max_workers < 0) then None
  else Some (mkPool max_workers max_workers ∅ []).

(** What the event loop does next with the calls of [submit].  Between two
    of these events no coroutine of the executor is suspended half-way:
    - [EvSubmit]: a caller enters [submit] and stands before the semaphore;
    - [EvAcquire i]: call [i] passes [async with self.semaphore], creates
      its task and adds it to [active_tasks];
    - [EvFinish i o]: the task of call [i] ends with [o]; the [finally]
      discards it from [active_tasks], leaving the [async with] releases
      the semaphore, and [submit] returns or raises [o]. *)
Inductive pool_event : Type :=
| EvSubmit
| EvAcquire (i : nat)
| EvFinish (i : nat) (o : outcome).

(** One event; [None] when the event cannot happen in this state. *)
Definition pool_step (p : AsyncPoolExecutor) (ev : pool_event) : option AsyncPoolExecutor :=
  match ev with
  | EvSubmit =>
      Some (mkPool (max_workers p) (semaphore p) (active_tasks p) (submits p ++ [AtAcquire]))
  | EvAcquire i =>
      match submits p !! i with
      | Some AtAcquire =>
          if bool_decide (0 < semaphore p)
          then Some (mkPool (max_workers p) (semaphore p - 1)
                            ({[ i ]} ∪ active_tasks p)
                            (<[i := AwaitingTask]> (submits p)))
          else None
      | _ => None
      end
  | EvFinish i o =>
      match submits p !! i with
      | Some AwaitingTask =>
          Some (mkPool (max_workers p) (semaphore p + 1)
                       (active_tasks p ∖ {[ i ]})
                       (<[i := Finished o]> (submits p)))
      | _ => None
      end
  end.

Fixpoint pool_run (p : AsyncPoolExecutor) (evs : list pool_event) : option AsyncPoolExecutor :=
  match evs with
  | [] => Some p
  | ev :: rest =>
      match pool_step p ev with
      | Some p1 => pool_run p1 rest
      | None => None
      end
  end.

Definition is_executing (s : submit_state) : bool :=
  match s with AwaitingTask => true | _ => false end.

(** The number of task bodies that are executing. *)
Definition executing (p : AsyncPoolExecutor) : Z :=
  Z.of_nat (length (filter (fun s => is_executing s = true) (submits p))).

(** What every event keeps true: a permit is out for each executing task
    and for nothing else. *)
Record pool_ok (p : AsyncPoolExecutor) : Prop := {
  pool_permits : semaphore p + executing p = max_workers p;
  pool_semaphore : 0 ≤ semaphore p;
  pool_active : ∀ i, i ∈ active_tasks p ↔ submits p !! i = Some AwaitingTask
}.

(** ** Statistics of one operation *)

(** A value of the dictionary of [get_operation_stats]: the name, a
    number, or the [datetime] that [last_run] prints in ISO format. *)
Inductive opstat : Type :=
| OpText (s : string)
| OpNum (x : pynum)
| OpTime (t : Z).

(** [min] and [max] of a sequence with first element [x]: the running
    value changes only for a strictly smaller (larger) element. *)
Definition py_min_Qc (x : Qc) (l : list Qc) : Qc :=
  foldl (fun a b => if decide (b < a)%Qc then b else a) x l.
Definition py_max_Qc (x : Qc) (l : list Qc) : Qc :=
  foldl (fun a b => if decide (a < b)%Qc then b else a) x l.
Definition py_max_Z (x : Z) (l : list Z) : Z := foldl Z.max x l.

(** [PerformanceMonitor.get_operation_stats] *)
Definition get_operation_stats (pm : PerformanceMonitor) (name : string)
    : list (string * opstat) :=
  let operation_metrics := filter (fun m => operation_name m = name) (metrics pm) in
  match operation_metrics with
  | [] => [("operation", OpText name); ("count", OpNum (PyI 0))]%string
  | first :: others =>
      let n := Z.of_nat (length operation_metrics) in
      let durations := duration <$> operation_metrics in
      let memory_usage := memory_used <$> operation_metrics in
      let cache_hits :=
        Z.of_nat (length (filter (fun m => cache_hit m = true) operation_metrics)) in
      [ ("operation", OpText name);
        ("count", OpNum (PyI n));
        ("avg_duration", OpNum (PyF (sum_Qc durations / Qc_of_Z n)%Qc));
        ("min_duration", OpNum (PyF (py_min_Qc (duration first) (duration <$> others))));
        ("max_duration", OpNum (PyF (py_max_Qc (duration first) (duration <$> others))));
        ("avg_memory", OpNum (PyF (true_div (py_sum memory_usage) n)));
        ("cache_hit_rate", OpNum (PyF (true_div cache_hits n)));
        ("last_run", OpTime (py_max_Z (timestamp first) (timestamp <$> others))) ]%string
  end.

(** ** The [performance_monitor] decorator *)

Section performance_monitor.
(** The decorated function by the outcome of a call, its [__name__], and
    [str] on exceptions. *)
Variable func : pyobj → outcome.
Variable func_name : string.
Variable str_exc : pyexc → list N.

(** One call of the wrapper: what the caller gets and the monitor after
    it.  [start_time] and [end_time] are the readings of
    [time.perf_counter], [start_memory] and [end_memory] those of
    [get_memory_usage], [now] the clock of [record_operation].  The
    keyword arguments [success] and [error] land in the metadata. *)
Definition monitor_wrapper (monitor : PerformanceMonitor) (args : pyobj)
    (start_time end_time : Qc) (start_memory end_memory : Z) (now : Z)
    : outcome * PerformanceMonitor :=
  let duration := (end_time - start_time)%Qc in
  let memory_used := end_memory - start_memory in
  match func args with
  | Returns result =>
      (Returns result,
       record_operation monitor func_name duration memory_used false
         [("success", PyBool true)]%string now)
  | Raises e =>
      (Raises e,
       record_operation monitor func_name duration memory_used false
         [("success", PyBool false); ("error", PyStr (str_exc e))]%string now)
  end.
End performance_monitor.

(** ** Processing in chunks *)

(** [process_item]: the placeholder hands the item back. *)
Definition process_item (item : pyobj) : pyobj := item.

(** The slice [l[i:j]] for [0 ≤ i]: the indices are clamped to the list,
    and the slice is empty when [j ≤ i]. *)
Definition py_slice {A} (l : list A) (i j : Z) : list A :=
  take (Z.to_nat (j - i)) (drop (Z.to_nat i) l).

(** The values [i, i + step, ...] below [stop], for [step > 0]; there are
    at most [stop - i] of them. *)
Fixpoint range_from (fuel : nat) (i stop step : Z) : list Z :=
  match fuel with
  | O => []
  | S fuel' =>
      if bool_decide (i < stop) then i :: range_from fuel' (i + step) stop step
      else []
  end.

(** [range(0, stop, step)] for [stop ≥ 0], as [len] gives it: a zero step
    raises [ValueError], a negative step gives an empty range. *)
Definition py_range0 (stop step : Z) : option (list Z) :=
  if bool_decide (step = 0) then None
  else if bool_decide (step < 0) then Some []
  else Some (range_from (Z.to_nat stop) 0 stop step).

(** One turn of the loop of [optimize_for_large_datasets], on the results
    so far and the number of times [gc.collect] ran.  [gather] returns the
    results of a chunk in the order of its items. *)
Definition chunk_step (data : list pyobj) (chunk_size : Z)
    (state : list pyobj * nat) (i : Z) : list pyobj * nat :=
  let '(results, collections) := state in
  let chunk := py_slice data i (i + chunk_size) in
  let chunk_results := process_item <$> chunk in
  (results ++ chunk_results,
   if bool_decide (i `mod` (chunk_size * 10) = 0)
   then S collections else collections).

(** [optimize_for_large_datasets]: the results, and how often [gc.collect]
    ran; [None] when [range] raises. *)
Definition optimize_for_large_datasets (data : list pyobj) (chunk_size : Z)
    : option (list pyobj * nat) :=
  match py_range0 (Z.of_nat (length data)) chunk_size with
  | None => None
  | Some starts => Some (foldl (chunk_step data chunk_size) ([], O) starts)
  end.

(** ** Work left in the pool *)

(** The events a call of [submit] still has before it: two while it waits
    for the semaphore, one while its task runs, none once it is over. *)
Definition events_left (s : submit_state) : nat :=
  match s with AtAcquire => 2 | AwaitingTask => 1 | Finished _ => 0 end.

Definition pool_work (p : AsyncPoolExecutor) : nat :=
  sum_list_with events_left (submits p).

(** ** An induction principle for values *)

(** Induction on values that reaches the elements of lists, tuples and
    dictionaries. *)
Section pyobj_induction.
Variable P : pyobj → Prop.
Hypothesis HNone : P PyNone.
Hypothesis HBool : ∀ b, P (PyBool b).
Hypothesis HInt : ∀ n, P (PyInt n).
Hypothesis HFloat : ∀ m e, P (PyFloat m e).
Hypothesis HStr : ∀ s, P (PyStr s).
Hypothesis HList : ∀ items, Forall P items → P (PyList items).
Hypothesis HTuple : ∀ items, Forall P items → P (PyTuple items).
Hypothesis HDict : ∀ items, Forall (fun kv => P kv.1 ∧ P kv.2) items → P (PyDict items).
Hypothesis HObject : ∀ repr, P (PyObject repr).

Fixpoint pyobj_nested_ind (obj : pyobj) : P obj :=
  match obj with
  | PyNone => HNone
  | PyBool b => HBool b
  | PyInt n => HInt n
  | PyFloat m e => HFloat m e
  | PyStr s => HStr s
  | PyList items =>
      HList items
        ((fix go (l : list pyobj) : Forall P l :=
            match l with
            | [] => Forall_nil P
            | x :: l' => Forall_cons P x l' (pyobj_nested_ind x) (go l')
            end) items)
  | PyTuple items =>
      HTuple items
        ((fix go (l : list pyobj) : Forall P l :=
            match l with
            | [] => Forall_nil P
            | x :: l' => Forall_cons P x l' (pyobj_nested_ind x) (go l')
            end) items)
  | PyDict items =>
      HDict items
        ((fix go (l : list (pyobj * pyobj)) : Forall (fun kv => P kv.1 ∧ P kv.2) l :=
            match l with
            | [] => Forall_nil _
            | (k, v) :: l' =>
                Forall_cons (fun kv => P kv.1 ∧ P kv.2) (k, v) l'
                  (conj (pyobj_nested_ind k) (pyobj_nested_ind v)) (go l')
            end) items)
  | PyObject repr => HObject repr
  end.
End pyobj_induction.

(** * Proofs *)

(** ** The model at work *)

(** The scenario of the specification: three entries fill the cache, the
    fourth evicts the least recently used one. *)
Example scenario_four_sets :
  let w := PyStr (replicate 10 119%N) in
  let c := run_sets (LRUCache_init 3 1 3600)
             [ ("a", PyStr (replicate 10 120%N), None, 0);
               ("b", PyStr (replicate 10 121%N), None, 1);
               ("c", PyStr (replicate 10 122%N), None, 2);
               ("d", w, None, 3) ]%string in
  (LRUCache_get c "a" 4).1 = PyNone
  ∧ (LRUCache_get c "d" 4).1 = w
  ∧ dict_get (get_stats c) "evictions" = Some (PyI 1)
  ∧ _access_order c = ["b"; "c"; "d"]%string
  ∧ _current_memory c = 30.
Proof. vm_compute. repeat split; reflexivity. Qed.

Example estimate_size_examples :
  _estimate_size (PyStr [104; 233; 8364; 128512]%N) = 10
  ∧ _estimate_size (PyStr [55296]%N) = 1024
  ∧ _estimate_size (PyList [PyInt 1; PyFloat 1 (-1); PyBool true]) = 88
  ∧ _estimate_size (PyDict [(PyStr [107]%N, PyTuple [])]) = 129
  ∧ _estimate_size PyNone = 104.
Proof. repeat split; reflexivity. Qed.

Example slice_examples :
  py_slice_from [1; 2; 3; 4] (-2) = [3; 4]
  ∧ py_slice_from [1; 2; 3; 4] (-9) = [1; 2; 3; 4]
  ∧ py_slice_from [1; 2; 3; 4] (- 0) = [1; 2; 3; 4].
Proof. repeat split; reflexivity. Qed.

(** ** Sizes *)

Lemma utf8_width_pos cp w : utf8_width cp = Some w → 0 < w.
Proof.
  unfold utf8_width. repeat case_match; intros [= <-]; lia.
Qed.

Lemma utf8_len_nonneg s n : utf8_len s = Some n → 0 ≤ n.
Proof.
  revert n. induction s as [|cp s IH]; simpl; intros n.
  - intros [= <-]. lia.
  - destruct (utf8_width cp) as [w|] eqn:Hw; [|done].
    destruct (utf8_len s) as [m|]; [|done].
    intros [= <-]. apply utf8_width_pos in Hw. specialize (IH m eq_refl). lia.
Qed.

Lemma py_sum_nonneg l : Forall (fun n => 0 ≤ n) l → 0 ≤ py_sum l.
Proof. induction 1; simpl; lia. Qed.

Lemma estimate_size_nonneg obj : 0 ≤ _estimate_size obj.
Proof.
  induction obj as [| | | |s|items IH|items IH|items IH|repr] using pyobj_nested_ind;
    simpl; try lia.
  - destruct (utf8_len s) eqn:E; [by eapply utf8_len_nonneg|lia].
  - assert (0 ≤ py_sum (map _estimate_size items)); [|lia].
    apply py_sum_nonneg. induction IH; simpl; constructor; auto.
  - assert (0 ≤ py_sum (map _estimate_size items)); [|lia].
    apply py_sum_nonneg. induction IH; simpl; constructor; auto.
  - match goal with |- 0 ≤ py_sum ?l + 64 => assert (0 ≤ py_sum l); [|lia] end.
    apply py_sum_nonneg. induction IH as [|[k v] l [Hk Hv] _ IHl]; simpl; constructor; auto.
    simpl in *. lia.
  - destruct repr as [s|]; [|lia].
    destruct (utf8_len s) eqn:E; [|lia]. apply utf8_len_nonneg in E. lia.
Qed.

(** ** The sum of the stored sizes *)

Lemma total_size_empty : total_size ∅ = 0.
Proof. unfold total_size. by rewrite map_fold_empty. Qed.

Lemma total_size_insert m k e :
  m !! k = None → total_size (<[k := e]> m) = size_bytes e + total_size m.
Proof.
  intros Hk. unfold total_size. rewrite map_fold_insert_L; [done| |done].
  intros. lia.
Qed.

Lemma total_size_delete m k e :
  m !! k = Some e → total_size (delete k m) = total_size m - size_bytes e.
Proof.
  intros Hk. unfold total_size.
  rewrite (map_fold_delete_L _ _ k e m); [lia| |done].
  intros. lia.
Qed.

Lemma total_size_update m k e e' :
  m !! k = Some e →
  total_size (<[k := e']> m) = total_size m - size_bytes e + size_bytes e'.
Proof.
  intros Hk. rewrite <- insert_delete_eq.
  rewrite total_size_insert by apply lookup_delete_eq.
  rewrite (total_size_delete m k e) by done. lia.
Qed.

Lemma total_size_nonneg m :
  (∀ k e, m !! k = Some e → 0 ≤ size_bytes e) → 0 ≤ total_size m.
Proof.
  induction m as [|k e m Hk IH] using map_ind; intros Hm.
  - by rewrite total_size_empty.
  - rewrite total_size_insert by done.
    assert (0 ≤ size_bytes e) by (apply (Hm k); by rewrite lookup_insert_eq).
    assert (0 ≤ total_size m); [|lia].
    apply IH. intros k' e' Hk'. apply (Hm k').
    rewrite lookup_insert_ne; [done|]. intros ->. congruence.
Qed.

(** ** Removing one occurrence from the access order *)

Lemma list_remove_first_notin x l : x ∉ l → list_remove_first x l = l.
Proof.
  induction l as [|y l IH]; simpl; [done|]. intros Hx.
  apply not_elem_of_cons in Hx as [Hxy Hl].
  destruct (decide (x = y)); [done|]. by rewrite IH.
Qed.

Lemma elem_of_list_remove_first_ne x y l :
  x ≠ y → y ∈ list_remove_first x l ↔ y ∈ l.
Proof.
  intros Hxy. induction l as [|z l IH]; simpl; [done|].
  destruct (decide (x = z)) as [->|Hz].
  - rewrite elem_of_cons. naive_solver.
  - rewrite !elem_of_cons, IH. done.
Qed.

Lemma elem_of_list_remove_first_sub x y l :
  y ∈ list_remove_first x l → y ∈ l.
Proof.
  induction l as [|z l IH]; simpl; [done|].
  destruct (decide (x = z)); rewrite ?elem_of_cons; naive_solver.
Qed.

Lemma NoDup_list_remove_first x l :
  NoDup l → NoDup (list_remove_first x l) ∧ x ∉ list_remove_first x l.
Proof.
  induction 1 as [|y l Hy Hl IH]; simpl.
  - split; [constructor|]. apply not_elem_of_nil.
  - destruct (decide (x = y)) as [->|Hxy]; [done|].
    destruct IH as [IH1 IH2]. split.
    + constructor; [|done]. intros Hin. by apply elem_of_list_remove_first_sub in Hin.
    + apply not_elem_of_cons. done.
Qed.

Lemma length_list_remove_first x l :
  (length (list_remove_first x l) ≤ length l)%nat.
Proof.
  induction l as [|y l IH]; simpl; [done|].
  destruct (decide (x = y)); simpl; lia.
Qed.

(** ** [_remove_entry] *)

(** What [_remove_entry] leaves of each attribute. *)
Lemma remove_entry_cache c key :
  _cache (_remove_entry c key) = delete key (_cache c).
Proof.
  unfold _remove_entry. destruct (_cache c !! key) eqn:E; simpl.
  - by case_bool_decide.
  - case_bool_decide; simpl; by rewrite delete_id.
Qed.

Lemma remove_entry_access_order c key :
  _access_order (_remove_entry c key) = list_remove_first key (_access_order c).
Proof.
  unfold _remove_entry. destruct (_cache c !! key) eqn:E; simpl.
  - case_bool_decide as Hin; simpl in *; [done|]. by rewrite list_remove_first_notin.
  - case_bool_decide as Hin; simpl in *; [done|]. by rewrite list_remove_first_notin.
Qed.

Lemma remove_entry_current_memory c key :
  _current_memory (_remove_entry c key) =
  match _cache c !! key with
  | Some entry => _current_memory c - size_bytes entry
  | None => _current_memory c
  end.
Proof.
  unfold _remove_entry. destruct (_cache c !! key) eqn:E; simpl; by case_bool_decide.
Qed.

Lemma remove_entry_config c key :
  max_size (_remove_entry c key) = max_size c
  ∧ max_memory_bytes (_remove_entry c key) = max_memory_bytes c
  ∧ default_ttl (_remove_entry c key) = default_ttl c.
Proof.
  unfold _remove_entry. destruct (_cache c !! key); simpl; by case_bool_decide.
Qed.

Lemma remove_entry_counters c key :
  hits (_remove_entry c key) = hits c
  ∧ misses (_remove_entry c key) = misses c
  ∧ evictions (_remove_entry c key) = evictions c.
Proof.
  unfold _remove_entry. destruct (_cache c !! key); simpl; by case_bool_decide.
Qed.

Lemma remove_entry_memory_ok c key : memory_ok c → memory_ok (_remove_entry c key).
Proof.
  intros [Hsum Hsizes]. split.
  - rewrite remove_entry_current_memory, remove_entry_cache.
    destruct (_cache c !! key) as [e|] eqn:E.
    + rewrite (total_size_delete _ _ e) by done. lia.
    + by rewrite delete_id.
  - intros k e. rewrite remove_entry_cache. intros Hk.
    apply lookup_delete_Some in Hk as [_ Hk]. eauto.
Qed.

Lemma remove_entry_order_ok c key : order_ok c → order_ok (_remove_entry c key).
Proof.
  intros [Hnd Hkeys]. split.
  - rewrite remove_entry_access_order. by apply NoDup_list_remove_first.
  - intros k. rewrite remove_entry_access_order, remove_entry_cache.
    destruct (decide (key = k)) as [->|Hne].
    + rewrite lookup_delete_eq. split; [|by intros [? ?]].
      intros Hin. by apply (NoDup_list_remove_first k) in Hnd as [_ ?].
    + rewrite lookup_delete_ne by done.
      rewrite elem_of_list_remove_first_ne by done. apply Hkeys.
Qed.

(** ** The eviction loop *)

Lemma make_space_config fuel c nbytes :
  max_size (make_space fuel c nbytes) = max_size c
  ∧ max_memory_bytes (make_space fuel c nbytes) = max_memory_bytes c
  ∧ default_ttl (make_space fuel c nbytes) = default_ttl c
  ∧ hits (make_space fuel c nbytes) = hits c
  ∧ misses (make_space fuel c nbytes) = misses c.
Proof.
  revert c. induction fuel as [|fuel IH]; intros c; simpl; [done|].
  destruct (needs_space c nbytes); [|done].
  destruct (_access_order c) as [|k rest]; [done|].
  destruct (IH (with_evictions (_remove_entry (with_access_order c rest) k)
                  (evictions (_remove_entry (with_access_order c rest) k) + 1)))
    as (-> & -> & -> & -> & ->). simpl.
  destruct (remove_entry_config (with_access_order c rest) k) as (-> & -> & ->).
  destruct (remove_entry_counters (with_access_order c rest) k) as (-> & -> & _).
  done.
Qed.

(** The loop only takes entries away. *)
Lemma make_space_lookup fuel c nbytes k e :
  _cache (make_space fuel c nbytes) !! k = Some e → _cache c !! k = Some e.
Proof.
  revert c. induction fuel as [|fuel IH]; intros c; simpl; [done|].
  destruct (needs_space c nbytes); [|done].
  destruct (_access_order c) as [|k0 rest]; [done|].
  intros H. apply IH in H. simpl in H. rewrite remove_entry_cache in H.
  by apply lookup_delete_Some in H as [_ H].
Qed.

Lemma evict_step_memory_ok c k rest n :
  memory_ok c →
  memory_ok (with_evictions (_remove_entry (with_access_order c rest) k) n).
Proof.
  intros Hc.
  assert (memory_ok (with_access_order c rest)) as H1 by (by destruct Hc).
  apply (remove_entry_memory_ok _ k) in H1. by destruct H1.
Qed.

Lemma evict_step_order_ok c k rest n :
  order_ok c → _access_order c = k :: rest →
  order_ok (with_evictions (_remove_entry (with_access_order c rest) k) n).
Proof.
  intros [Hnd Hkeys] Heq. rewrite Heq in Hnd. apply list.NoDup_cons in Hnd as [Hk Hnd].
  split; simpl.
  - rewrite remove_entry_access_order. simpl. by rewrite list_remove_first_notin.
  - intros k'. rewrite remove_entry_access_order, remove_entry_cache. simpl.
    rewrite list_remove_first_notin by done.
    destruct (decide (k = k')) as [<-|Hne].
    + rewrite lookup_delete_eq. split; [done|by intros [? ?]].
    + rewrite lookup_delete_ne by done. rewrite <- Hkeys, Heq, elem_of_cons.
      naive_solver.
Qed.

Lemma make_space_memory_ok fuel c nbytes :
  memory_ok c → memory_ok (make_space fuel c nbytes).
Proof.
  revert c. induction fuel as [|fuel IH]; intros c Hc; simpl; [done|].
  destruct (needs_space c nbytes); [|done].
  destruct (_access_order c) as [|k rest] eqn:E; [done|].
  apply IH. by apply evict_step_memory_ok.
Qed.

Lemma make_space_order_ok fuel c nbytes :
  order_ok c → order_ok (make_space fuel c nbytes).
Proof.
  revert c. induction fuel as [|fuel IH]; intros c Hc; simpl; [done|].
  destruct (needs_space c nbytes); [|done].
  destruct (_access_order c) as [|k rest] eqn:E; [done|].
  apply IH. by apply evict_step_order_ok.
Qed.

(** The loop is over when the fuel is the length of the access order:
    the guard is false or the list is empty, as at the [break]. *)
Lemma make_space_exit fuel c nbytes :
  (length (_access_order c) ≤ fuel)%nat →
  needs_space (make_space fuel c nbytes) nbytes = false
  ∨ _access_order (make_space fuel c nbytes) = [].
Proof.
  revert c. induction fuel as [|fuel IH]; intros c Hlen; simpl.
  - right. destruct (_access_order c); [done|simpl in Hlen; lia].
  - destruct (needs_space c nbytes) eqn:Hn; [|by left].
    destruct (_access_order c) as [|k rest] eqn:E; [by right|].
    apply IH. simpl. rewrite remove_entry_access_order. simpl.
    pose proof (length_list_remove_first k rest). simpl in Hlen. lia.
Qed.

(** More fuel than the access order is long changes nothing. *)
Lemma make_space_fuel fuel fuel' c nbytes :
  (length (_access_order c) ≤ fuel)%nat →
  (length (_access_order c) ≤ fuel')%nat →
  make_space fuel c nbytes = make_space fuel' c nbytes.
Proof.
  revert fuel' c. induction fuel as [|fuel IH]; intros fuel' c Hlen Hlen'.
  - destruct (_access_order c) as [|k rest] eqn:E; [|simpl in Hlen; lia].
    destruct fuel'; simpl; [done|]. rewrite E. by destruct (needs_space c nbytes).
  - destruct fuel' as [|fuel'].
    + destruct (_access_order c) as [|k rest] eqn:E; [|simpl in Hlen'; lia].
      simpl. rewrite E. by destruct (needs_space c nbytes).
    + simpl. destruct (needs_space c nbytes); [|done].
      destruct (_access_order c) as [|k rest] eqn:E; [done|].
      simpl in Hlen, Hlen'.
      pose proof (length_list_remove_first k rest).
      apply IH; simpl; rewrite remove_entry_access_order; simpl; lia.
Qed.

(** ** [set] *)

Lemma set_prepared_absent c key :
  _cache (if bool_decide (is_Some (_cache c !! key))
          then _remove_entry c key else c) !! key = None.
Proof.
  case_bool_decide as H.
  - rewrite remove_entry_cache. apply lookup_delete_eq.
  - by apply eq_None_not_Some.
Qed.

Lemma set_space_absent c key nbytes fuel :
  _cache (make_space fuel
            (if bool_decide (is_Some (_cache c !! key))
             then _remove_entry c key else c) nbytes) !! key = None.
Proof.
  apply eq_None_not_Some. intros [e He].
  apply make_space_lookup in He. by rewrite set_prepared_absent in He.
Qed.

Lemma set_memory_ok c key value ttl now :
  memory_ok c → memory_ok (LRUCache_set c key value ttl now).
Proof.
  intros Hc. unfold LRUCache_set.
  set (c1 := if bool_decide _ then _ else _).
  assert (memory_ok c1) as H1.
  { subst c1. case_bool_decide; [by apply remove_entry_memory_ok|done]. }
  set (c2 := make_space _ c1 _).
  assert (memory_ok c2) as [Hsum Hsizes] by (by apply make_space_memory_ok).
  assert (_cache c2 !! key = None) as Hk by apply set_space_absent.
  split; simpl.
  - rewrite total_size_insert by done. simpl. lia.
  - intros k e. destruct (decide (key = k)) as [<-|Hne].
    + rewrite lookup_insert_eq. intros [= <-]. simpl. apply estimate_size_nonneg.
    + rewrite lookup_insert_ne by done. apply Hsizes.
Qed.

Lemma set_order_ok c key value ttl now :
  order_ok c → order_ok (LRUCache_set c key value ttl now).
Proof.
  intros Hc. unfold LRUCache_set.
  set (c1 := if bool_decide _ then _ else _).
  assert (order_ok c1) as H1.
  { subst c1. case_bool_decide; [by apply remove_entry_order_ok|done]. }
  set (c2 := make_space _ c1 _).
  assert (order_ok c2) as [Hnd Hkeys] by (by apply make_space_order_ok).
  assert (_cache c2 !! key = None) as Hk by apply set_space_absent.
  assert (key ∉ _access_order c2) as Hnotin.
  { rewrite Hkeys, Hk. by intros [? ?]. }
  split; simpl.
  - apply list.NoDup_app. split_and!; [done| |apply NoDup_singleton].
    intros x Hx Hx'. apply list_elem_of_singleton in Hx' as ->. done.
  - intros k. rewrite elem_of_app, list_elem_of_singleton.
    destruct (decide (key = k)) as [<-|Hne].
    + rewrite lookup_insert_eq. naive_solver.
    + rewrite lookup_insert_ne by done. rewrite Hkeys. naive_solver.
Qed.

(** After [set] the cache is within its bound, from any state that keeps
    the books. *)
Lemma set_cache_bound c key value ttl now :
  memory_ok c → order_ok c → 0 < max_size c →
  cache_bound (LRUCache_set c key value ttl now).
Proof.
  intros Hm Ho Hmax. unfold LRUCache_set.
  set (nbytes := _estimate_size value).
  set (c1 := if bool_decide _ then _ else _).
  assert (memory_ok c1 ∧ order_ok c1) as [Hm1 Ho1].
  { subst c1. case_bool_decide; [|done].
    split; [by apply remove_entry_memory_ok|by apply remove_entry_order_ok]. }
  set (c2 := make_space _ c1 _).
  assert (memory_ok c2) as [Hsum Hsizes] by (by apply make_space_memory_ok).
  assert (order_ok c2) as [Hnd Hkeys] by (by apply make_space_order_ok).
  assert (_cache c2 !! key = None) as Hk by apply set_space_absent.
  destruct (make_space_config (length (_access_order c1)) c1 nbytes)
    as (Hms & Hmm & _).
  assert (max_size c1 = max_size c ∧ max_memory_bytes c1 = max_memory_bytes c)
    as [Hs1 Hb1].
  { subst c1. case_bool_decide; [|done].
    destruct (remove_entry_config c key) as (-> & -> & _). done. }
  fold c2 in Hms, Hmm.
  destruct (make_space_exit (length (_access_order c1)) c1 nbytes) as [Hexit|Hexit];
    [done| |]; fold c2 in Hexit.
  - left. unfold needs_space in Hexit.
    apply orb_false_iff in Hexit as [Hn Hb].
    apply bool_decide_eq_false in Hn, Hb.
    split; simpl.
    + rewrite map_size_insert_None by done. lia.
    + lia.
  - assert (_cache c2 = ∅) as Hempty.
    { apply map_empty. intros k. apply eq_None_not_Some. rewrite <- Hkeys, Hexit.
      apply not_elem_of_nil. }
    assert (_current_memory c2 = 0) as Hzero.
    { by rewrite Hsum, Hempty, total_size_empty. }
    destruct (decide (nbytes ≤ max_memory_bytes c2)) as [Hfit|Hover].
    + left. split; simpl.
      * rewrite Hempty, map_size_insert_None, map_size_empty by done. lia.
      * lia.
    + right. eexists key, _. simpl. split.
      * rewrite Hempty. apply insert_empty.
      * simpl. lia.
Qed.

(** ** [get], [delete], [clear] and [cleanup_expired] *)

Lemma get_memory_ok c key now : memory_ok c → memory_ok (LRUCache_get c key now).2.
Proof.
  intros Hc. unfold LRUCache_get.
  destruct (_cache c !! key) as [entry|] eqn:E; simpl; [|by destruct Hc].
  destruct (is_expired entry now); simpl.
  - apply (remove_entry_memory_ok _ key) in Hc. by destruct Hc.
  - destruct Hc as [Hsum Hsizes]. split; simpl.
    + rewrite (total_size_update _ _ entry) by done. simpl. lia.
    + intros k e. destruct (decide (key = k)) as [<-|Hne].
      * rewrite lookup_insert_eq. intros [= <-]. simpl. eauto.
      * rewrite lookup_insert_ne by done. apply Hsizes.
Qed.

Lemma get_order_ok c key now : order_ok c → order_ok (LRUCache_get c key now).2.
Proof.
  intros Hc. unfold LRUCache_get.
  destruct (_cache c !! key) as [entry|] eqn:E; simpl; [|by destruct Hc].
  destruct (is_expired entry now); simpl.
  - apply (remove_entry_order_ok _ key) in Hc. by destruct Hc.
  - destruct Hc as [Hnd Hkeys].
    assert (key ∈ _access_order c) as Hin by (apply Hkeys; by rewrite E).
    rewrite bool_decide_eq_true_2 by done.
    destruct (NoDup_list_remove_first key _ Hnd) as [Hnd' Hnotin].
    split; simpl.
    + apply list.NoDup_app. split_and!; [done| |apply NoDup_singleton].
      intros x Hx Hx'. apply list_elem_of_singleton in Hx' as ->. done.
    + intros k. rewrite elem_of_app, list_elem_of_singleton.
      destruct (decide (key = k)) as [<-|Hne].
      * rewrite lookup_insert_eq. naive_solver.
      * rewrite lookup_insert_ne by done.
        rewrite elem_of_list_remove_first_ne by done. rewrite Hkeys. naive_solver.
Qed.

Lemma delete_memory_ok c key : memory_ok c → memory_ok (LRUCache_delete c key).2.
Proof.
  intros Hc. unfold LRUCache_delete.
  case_bool_decide; simpl; [by apply remove_entry_memory_ok|done].
Qed.

Lemma delete_order_ok c key : order_ok c → order_ok (LRUCache_delete c key).2.
Proof.
  intros Hc. unfold LRUCache_delete.
  case_bool_decide; simpl; [by apply remove_entry_order_ok|done].
Qed.

Lemma clear_memory_ok c : memory_ok (LRUCache_clear c).
Proof.
  split; simpl; [by rewrite total_size_empty|].
  intros k e. by rewrite lookup_empty.
Qed.

Lemma clear_order_ok c : order_ok (LRUCache_clear c).
Proof.
  split; simpl; [constructor|].
  intros k. rewrite lookup_empty. split; [by intros ?%not_elem_of_nil|by intros [? ?]].
Qed.

Lemma remove_entries_memory_ok c keys :
  memory_ok c → memory_ok (foldl _remove_entry c keys).
Proof.
  revert c. induction keys as [|k keys IH]; intros c Hc; simpl; [done|].
  apply IH. by apply remove_entry_memory_ok.
Qed.

Lemma remove_entries_order_ok c keys :
  order_ok c → order_ok (foldl _remove_entry c keys).
Proof.
  revert c. induction keys as [|k keys IH]; intros c Hc; simpl; [done|].
  apply IH. by apply remove_entry_order_ok.
Qed.

Lemma init_memory_ok max_size max_memory_mb default_ttl :
  memory_ok (LRUCache_init max_size max_memory_mb default_ttl).
Proof.
  split; simpl; [by rewrite total_size_empty|].
  intros k e. by rewrite lookup_empty.
Qed.

Lemma init_order_ok max_size max_memory_mb default_ttl :
  order_ok (LRUCache_init max_size max_memory_mb default_ttl).
Proof.
  split; simpl; [constructor|].
  intros k. rewrite lookup_empty. split; [by intros ?%not_elem_of_nil|by intros [? ?]].
Qed.

Lemma run_op_memory_ok c op : memory_ok c → memory_ok (run_op c op).
Proof.
  intros Hc. destruct op; simpl.
  - by apply get_memory_ok.
  - by apply set_memory_ok.
  - by apply delete_memory_ok.
  - apply clear_memory_ok.
  - by apply remove_entries_memory_ok.
Qed.

Lemma run_op_order_ok c op : order_ok c → order_ok (run_op c op).
Proof.
  intros Hc. destruct op; simpl.
  - by apply get_order_ok.
  - by apply set_order_ok.
  - by apply delete_order_ok.
  - apply clear_order_ok.
  - by apply remove_entries_order_ok.
Qed.

Lemma run_ops_memory_ok c ops : memory_ok c → memory_ok (run_ops c ops).
Proof.
  revert c. induction ops as [|op ops IH]; intros c Hc; simpl; [done|].
  apply IH. by apply run_op_memory_ok.
Qed.

Lemma run_ops_order_ok c ops : order_ok c → order_ok (run_ops c ops).
Proof.
  revert c. induction ops as [|op ops IH]; intros c Hc; simpl; [done|].
  apply IH. by apply run_op_order_ok.
Qed.

(** The configuration never changes. *)
Lemma set_config c key value ttl now :
  max_size (LRUCache_set c key value ttl now) = max_size c
  ∧ max_memory_bytes (LRUCache_set c key value ttl now) = max_memory_bytes c
  ∧ default_ttl (LRUCache_set c key value ttl now) = default_ttl c.
Proof.
  unfold LRUCache_set. simpl.
  destruct (make_space_config
              (length (_access_order (if bool_decide (is_Some (_cache c !! key))
                                      then _remove_entry c key else c)))
              (if bool_decide (is_Some (_cache c !! key))
               then _remove_entry c key else c) (_estimate_size value))
    as (-> & -> & -> & _).
  case_bool_decide; [|done].
  destruct (remove_entry_config c key) as (-> & -> & ->). done.
Qed.

Lemma run_sets_snoc c calls call :
  run_sets c (calls ++ [call]) =
  let '(key, value, ttl, now) := call in
  LRUCache_set (run_sets c calls) key value ttl now.
Proof.
  unfold run_sets. rewrite foldl_app. simpl. by destruct call as [[[? ?] ?] ?].
Qed.

Lemma run_sets_keeps c calls :
  memory_ok c → order_ok c →
  memory_ok (run_sets c calls) ∧ order_ok (run_sets c calls)
  ∧ max_size (run_sets c calls) = max_size c
  ∧ max_memory_bytes (run_sets c calls) = max_memory_bytes c.
Proof.
  revert c. induction calls as [|[[[key value] ttl] now] calls IH];
    intros c Hm Ho; simpl; [done|].
  destruct (IH (LRUCache_set c key value ttl now)) as (? & ? & -> & ->).
  - by apply set_memory_ok.
  - by apply set_order_ok.
  - destruct (set_config c key value ttl now) as (-> & -> & _). done.
Qed.

(** ** The cache bound *)

(** C1.  On a cache configured with [max_size > 0] and a memory budget
    [> 0], after each call of every sequence of [set] calls either the
    number of entries is at most [max_size] and the memory counter is at
    most the budget, or the cache holds exactly one entry and the size of
    that entry alone is over the budget. *)
Theorem set_sequence_within_bound (max_size max_memory_mb default_ttl : Z)
    (calls : list set_call) (n : nat) :
  0 < max_size → 0 < max_memory_mb →
  cache_bound (run_sets (LRUCache_init max_size max_memory_mb default_ttl)
                        (take n calls)).
Proof.
  intros Hsize Hmem.
  set (c0 := LRUCache_init max_size max_memory_mb default_ttl).
  destruct (take n calls) as [|call prefix _] using rev_ind.
  - left. split; simpl; [rewrite map_size_empty|]; lia.
  - rewrite run_sets_snoc. destruct call as [[[key value] ttl] now].
    destruct (run_sets_keeps c0 prefix) as (Hm & Ho & Hs & _);
      [apply init_memory_ok|apply init_order_ok|].
    apply set_cache_bound; [done|done|]. rewrite Hs. simpl. lia.
Qed.

Lemma set_sequence_within_bound_witness :
  cache_bound
    (run_sets (LRUCache_init 2 1 0)
       (take 3 [("a", PyInt 1, None, 0); ("b", PyStr [104; 105]%N, Some 5, 1);
                ("c", PyNone, None, 2)]%string)).
Proof.
  apply (set_sequence_within_bound 2 1 0); lia.
Defined.

(** ** The memory counter *)

(** C9.  After every run of [get], [set], [delete], [clear] and
    [cleanup_expired] calls the memory counter is the sum of [size_bytes]
    over the entries of the dictionary; it is not negative, and it is 0
    when the dictionary is empty. *)
Theorem memory_counter_is_sum_of_sizes (max_size max_memory_mb default_ttl : Z)
    (ops : list cache_op) :
  let c := run_ops (LRUCache_init max_size max_memory_mb default_ttl) ops in
  _current_memory c = total_size (_cache c)
  ∧ 0 ≤ _current_memory c
  ∧ (_cache c = ∅ → _current_memory c = 0).
Proof.
  intros c.
  assert (memory_ok c) as [Hsum Hsizes]
    by (apply run_ops_memory_ok, init_memory_ok).
  split_and!.
  - done.
  - rewrite Hsum. by apply total_size_nonneg.
  - intros Hempty. by rewrite Hsum, Hempty, total_size_empty.
Qed.

(** ** Expiry *)

Lemma get_expired c key entry now :
  _cache c !! key = Some entry → is_expired entry now = true →
  LRUCache_get c key now =
  (PyNone, with_misses (_remove_entry c key) (misses (_remove_entry c key) + 1)).
Proof. intros H1 H2. unfold LRUCache_get. by rewrite H1, H2. Qed.

Lemma set_lookup c key value ttl now :
  _cache (LRUCache_set c key value ttl now) !! key =
  Some (mkEntry value now now 0 (_estimate_size value) (new_expiry c ttl now)).
Proof.
  unfold LRUCache_set. simpl. rewrite lookup_insert_eq. do 2 f_equal.
  unfold new_expiry.
  destruct (make_space_config
              (length (_access_order (if bool_decide (is_Some (_cache c !! key))
                                      then _remove_entry c key else c)))
              (if bool_decide (is_Some (_cache c !! key))
               then _remove_entry c key else c) (_estimate_size value))
    as (_ & _ & -> & _).
  destruct (bool_decide (is_Some (_cache c !! key))); [|done].
  destruct (remove_entry_config c key) as (_ & _ & ->). done.
Qed.

(** C3.  [get] of a key whose entry has expired returns [None], takes the
    entry out of the dictionary (and out of the access order), adds one to
    [misses] and leaves [evictions] and [hits] as they were.  In particular
    after [set(K, V, ttl)] and a wait longer than [ttl] seconds, [get(K)]
    returns [None], [misses] has grown by one and [evictions] has not
    changed. *)
Theorem get_expired_is_miss_not_eviction :
  (∀ c key entry t now,
     _cache c !! key = Some entry → expires_at entry = Some t → t < now →
     let r := LRUCache_get c key now in
     r.1 = PyNone
     ∧ _cache r.2 !! key = None
     ∧ (order_ok c → key ∉ _access_order r.2)
     ∧ misses r.2 = misses c + 1
     ∧ evictions r.2 = evictions c
     ∧ hits r.2 = hits c)
  ∧ (∀ c key value ttl t_set t_get,
       t_set + timedelta_seconds ttl < t_get →
       let c1 := LRUCache_set c key value (Some ttl) t_set in
       let r := LRUCache_get c1 key t_get in
       r.1 = PyNone
       ∧ _cache r.2 !! key = None
       ∧ misses r.2 = misses c1 + 1
       ∧ evictions r.2 = evictions c1).
Proof.
  assert (∀ c key entry now,
     _cache c !! key = Some entry → is_expired entry now = true →
     let r := LRUCache_get c key now in
     r.1 = PyNone
     ∧ _cache r.2 !! key = None
     ∧ (order_ok c → key ∉ _access_order r.2)
     ∧ misses r.2 = misses c + 1
     ∧ evictions r.2 = evictions c
     ∧ hits r.2 = hits c) as Hgen.
  { intros c key entry now Hk Hexp r. subst r.
    rewrite (get_expired c key entry now) by done. simpl.
    destruct (remove_entry_counters c key) as (-> & -> & ->).
    rewrite remove_entry_cache, lookup_delete_eq, remove_entry_access_order.
    split_and!; try done.
    intros [Hnd _]. by apply (NoDup_list_remove_first key) in Hnd as [_ ?]. }
  split.
  - intros c key entry t now Hk Ht Hlt. apply (Hgen c key entry); [done|].
    unfold is_expired. rewrite Ht. by apply bool_decide_eq_true_2.
  - intros c key value ttl t_set t_get Hlt c1 r.
    destruct (Hgen c1 key
                (mkEntry value t_set t_set 0 (_estimate_size value)
                         (new_expiry c (Some ttl) t_set)) t_get)
      as (? & ? & _ & ? & ? & _); [apply set_lookup| |done].
    unfold is_expired. simpl. by apply bool_decide_eq_true_2.
Qed.

Lemma get_expired_is_miss_not_eviction_witness :
  let c1 := LRUCache_set (LRUCache_init 1000 100 3600) "K" (PyStr [86]%N) (Some 1) 0 in
  let r := LRUCache_get c1 "K" 1000001 in
  r.1 = PyNone
  ∧ _cache r.2 !! "K" = None
  ∧ misses r.2 = misses c1 + 1
  ∧ evictions r.2 = evictions c1.
Proof.
  apply (proj2 get_expired_is_miss_not_eviction
           (LRUCache_init 1000 100 3600) "K" (PyStr [86]%N) 1 0 1000001).
  unfold timedelta_seconds. lia.
Defined.

(** ** Least recently used first *)

Lemma make_space_no_need fuel c nbytes :
  needs_space c nbytes = false → make_space fuel c nbytes = c.
Proof. intros H. destruct fuel; simpl; [done|]. by rewrite H. Qed.

Lemma make_space_evict_one fuel c nbytes k rest :
  needs_space c nbytes = true → _access_order c = k :: rest →
  needs_space (with_evictions (_remove_entry (with_access_order c rest) k)
                 (evictions (_remove_entry (with_access_order c rest) k) + 1))
              nbytes = false →
  make_space (S fuel) c nbytes =
  with_evictions (_remove_entry (with_access_order c rest) k)
    (evictions (_remove_entry (with_access_order c rest) k) + 1).
Proof.
  intros Hneed Horder Hdone. simpl. rewrite Hneed, Horder.
  by apply make_space_no_need.
Qed.

Lemma set_absent c key value ttl now c2 :
  _cache c !! key = None →
  make_space (length (_access_order c)) c (_estimate_size value) = c2 →
  LRUCache_set c key value ttl now =
  mkCache (max_size c2) (max_memory_bytes c2) (default_ttl c2)
    (<[key := mkEntry value now now 0 (_estimate_size value)
                      (new_expiry c2 ttl now)]> (_cache c2))
    (_access_order c2 ++ [key]) (_current_memory c2 + _estimate_size value)
    (hits c2) (misses c2) (evictions c2).
Proof.
  intros Hk <-. unfold LRUCache_set. rewrite Hk.
  rewrite bool_decide_eq_false_2 by (by intros [? ?]). done.
Qed.

Lemma get_hit c key entry now :
  _cache c !! key = Some entry → is_expired entry now = false →
  key ∈ _access_order c →
  LRUCache_get c key now =
  (data entry,
   mkCache (max_size c) (max_memory_bytes c) (default_ttl c)
     (<[key := mkEntry (data entry) (created_at entry) now (access_count entry + 1)
                       (size_bytes entry) (expires_at entry)]> (_cache c))
     (list_remove_first key (_access_order c) ++ [key]) (_current_memory c)
     (hits c + 1) (misses c) (evictions c)).
Proof.
  intros Hk Hexp Hin. unfold LRUCache_get. rewrite Hk, Hexp. simpl.
  by rewrite bool_decide_eq_true_2.
Qed.

Lemma get_absent c key now :
  _cache c !! key = None →
  LRUCache_get c key now = (PyNone, with_misses c (misses c + 1)).
Proof. intros Hk. unfold LRUCache_get. by rewrite Hk. Qed.

(** An entry made at [t_set] under the default expiry is not expired at
    [t_get] when the default is off or [t_get] is within it. *)
Lemma default_expiry_alive c value t_set t_get n :
  (0 < default_ttl c → t_get ≤ t_set + timedelta_seconds (default_ttl c)) →
  is_expired (mkEntry value t_set t_set 0 n (new_expiry c None t_set)) t_get = false.
Proof.
  intros H. unfold is_expired, new_expiry. simpl.
  case_bool_decide as Hd; [|done].
  apply bool_decide_eq_false_2. specialize (H Hd). lia.
Qed.

Lemma remove_entry_present c key entry :
  _cache c !! key = Some entry →
  _remove_entry c key =
  mkCache (max_size c) (max_memory_bytes c) (default_ttl c)
    (delete key (_cache c)) (list_remove_first key (_access_order c))
    (_current_memory c - size_bytes entry) (hits c) (misses c) (evictions c).
Proof.
  intros Hk. unfold _remove_entry. rewrite Hk. simpl.
  case_bool_decide as Hin; [done|].
  by rewrite list_remove_first_notin.
Qed.

Lemma alive_by_default entry ttl0 t_set t_get :
  expires_at entry =
    (if bool_decide (0 < ttl0) then Some (t_set + timedelta_seconds ttl0) else None) →
  (0 < ttl0 → t_get ≤ t_set + timedelta_seconds ttl0) →
  is_expired entry t_get = false.
Proof.
  intros He H. unfold is_expired. rewrite He.
  case_bool_decide as Hd; [|done].
  apply bool_decide_eq_false_2. specialize (H Hd). lia.
Qed.

(** C2.  On a cache with [max_size = 2], [set(A)], [set(B)], [get(A)],
    [set(C)] evicts [B] and nothing else: the [get] made [A] the most
    recently used key, so [B] heads the access order when [set(C)] needs
    room.  Afterwards [get(A)] and [get(C)] hit and [get(B)] misses.  The
    keys are distinct, the values fit the memory budget two at a time, and
    no entry reaches its default expiry during the run. *)
Theorem lru_evicts_least_recently_used (max_memory_mb ttl0 : Z)
    (A B C : string) (vA vB vC : pyobj) (t1 t2 t3 t4 t5 t6 t7 : Z) :
  A ≠ B → A ≠ C → B ≠ C →
  _estimate_size vA + _estimate_size vB ≤ max_memory_mb * 1024 * 1024 →
  _estimate_size vA + _estimate_size vC ≤ max_memory_mb * 1024 * 1024 →
  (0 < ttl0 → t3 ≤ t1 + timedelta_seconds ttl0
              ∧ t5 ≤ t1 + timedelta_seconds ttl0
              ∧ t6 ≤ t4 + timedelta_seconds ttl0) →
  let c1 := LRUCache_set (LRUCache_init 2 max_memory_mb ttl0) A vA None t1 in
  let c2 := LRUCache_set c1 B vB None t2 in
  let g3 := LRUCache_get c2 A t3 in
  let c4 := LRUCache_set g3.2 C vC None t4 in
  let g5 := LRUCache_get c4 A t5 in
  let g6 := LRUCache_get g5.2 C t6 in
  let g7 := LRUCache_get g6.2 B t7 in
  g3.1 = vA
  ∧ evictions c2 = 0 ∧ evictions c4 = 1
  ∧ _cache c4 !! B = None
  ∧ is_Some (_cache c4 !! A) ∧ is_Some (_cache c4 !! C)
  ∧ size (_cache c4) = 2%nat
  ∧ g5.1 = vA ∧ hits g5.2 = hits c4 + 1 ∧ misses g5.2 = misses c4
  ∧ g6.1 = vC ∧ hits g6.2 = hits g5.2 + 1 ∧ misses g6.2 = misses g5.2
  ∧ g7.1 = PyNone ∧ misses g7.2 = misses g6.2 + 1 ∧ hits g7.2 = hits g6.2.
Proof.
  intros HAB HAC HBC HmAB HmAC Halive.
  pose proof (estimate_size_nonneg vA) as HsA.
  pose proof (estimate_size_nonneg vB) as HsB.
  pose proof (estimate_size_nonneg vC) as HsC.
  set (M := max_memory_mb * 1024 * 1024) in *.
  set (sA := _estimate_size vA) in *.
  set (sB := _estimate_size vB) in *.
  set (sC := _estimate_size vC) in *.
  set (exp := fun t : Z =>
         if bool_decide (0 < ttl0) then Some (t + timedelta_seconds ttl0) else None).
  intros c1.
  (* set(A) on the empty cache *)
  assert (c1 = mkCache 2 M ttl0 {[ A := mkEntry vA t1 t1 0 sA (exp t1) ]}
                 [A] sA 0 0 0) as Hc1.
  { subst c1. erewrite set_absent; [|apply lookup_empty|reflexivity]. simpl.
    by rewrite insert_empty. }
  clearbody c1. subst c1. intros c2.
  (* set(B): one entry is stored, and both values fit *)
  assert (c2 = mkCache 2 M ttl0
                 (<[ B := mkEntry vB t2 t2 0 sB (exp t2) ]>
                    {[ A := mkEntry vA t1 t1 0 sA (exp t1) ]})
                 [A; B] (sA + sB) 0 0 0) as Hc2.
  { subst c2. erewrite set_absent.
    2: by apply lookup_singleton_ne.
    2:{ apply make_space_no_need.
        unfold needs_space. simpl. rewrite map_size_singleton.
        rewrite !bool_decide_eq_false_2; [done|lia|lia]. }
    done. }
  clearbody c2. subst c2. intros g3.
  (* get(A): a hit that moves A behind B *)
  assert (g3 = (vA, mkCache 2 M ttl0
                 (<[ B := mkEntry vB t2 t2 0 sB (exp t2) ]>
                    {[ A := mkEntry vA t1 t3 1 sA (exp t1) ]})
                 [B; A] (sA + sB) 1 0 0)) as Hg3.
  { subst g3.
    rewrite (get_hit _ A (mkEntry vA t1 t1 0 sA (exp t1))); simpl.
    - rewrite decide_True by done. simpl.
      rewrite insert_insert_ne, insert_singleton_eq by done. done.
    - rewrite lookup_insert_ne by done. apply lookup_singleton_eq.
    - apply (alive_by_default _ ttl0 t1); [done|]. intros H. by apply Halive.
    - apply elem_of_cons. by left. }
  clearbody g3. subst g3. intros c4.
  (* set(C): the cache is full, B is the head of the access order *)
  assert (c4 = mkCache 2 M ttl0
                 (<[ C := mkEntry vC t4 t4 0 sC (exp t4) ]>
                    {[ A := mkEntry vA t1 t3 1 sA (exp t1) ]})
                 [A; C] (sA + sC) 1 0 1) as Hc4.
  { subst c4. cbn [snd].
    assert (_remove_entry
              (with_access_order
                 (mkCache 2 M ttl0
                    (<[ B := mkEntry vB t2 t2 0 sB (exp t2) ]>
                       {[ A := mkEntry vA t1 t3 1 sA (exp t1) ]})
                    [B; A] (sA + sB) 1 0 0) [A]) B
            = mkCache 2 M ttl0 {[ A := mkEntry vA t1 t3 1 sA (exp t1) ]}
                [A] sA 1 0 0) as Hevict.
    { erewrite remove_entry_present by (simpl; apply lookup_insert_eq). simpl.
      rewrite decide_False by done.
      rewrite delete_insert_eq, delete_singleton_ne by done.
      f_equal. lia. }
    erewrite set_absent with
      (c2 := mkCache 2 M ttl0 {[ A := mkEntry vA t1 t3 1 sA (exp t1) ]}
               [A] sA 1 0 1); [done| |].
    - simpl. rewrite lookup_insert_ne by done. by apply lookup_singleton_ne.
    - etrans; [apply (make_space_evict_one 1 _ _ B [A])|].
      + unfold needs_space. simpl.
        rewrite map_size_insert_None by (by apply lookup_singleton_ne).
        rewrite map_size_singleton. by rewrite bool_decide_eq_true_2 by lia.
      + done.
      + rewrite Hevict. unfold needs_space. simpl. rewrite map_size_singleton.
        rewrite !bool_decide_eq_false_2; [done|lia|lia].
      + by rewrite Hevict. }
  clearbody c4. subst c4. intros g5.
  (* get(A), get(C), get(B) *)
  assert (g5 = (vA, mkCache 2 M ttl0
                 (<[ C := mkEntry vC t4 t4 0 sC (exp t4) ]>
                    {[ A := mkEntry vA t1 t5 2 sA (exp t1) ]})
                 [C; A] (sA + sC) 2 0 1)) as Hg5.
  { subst g5.
    rewrite (get_hit _ A (mkEntry vA t1 t3 1 sA (exp t1))); simpl.
    - rewrite decide_True by done. simpl.
      rewrite insert_insert_ne, insert_singleton_eq by done. done.
    - rewrite lookup_insert_ne by done. apply lookup_singleton_eq.
    - apply (alive_by_default _ ttl0 t1); [done|]. intros H. by apply Halive.
    - apply elem_of_cons. by left. }
  clearbody g5. subst g5. intros g6.
  assert (g6 = (vC, mkCache 2 M ttl0
                 (<[ C := mkEntry vC t4 t6 1 sC (exp t4) ]>
                    {[ A := mkEntry vA t1 t5 2 sA (exp t1) ]})
                 [A; C] (sA + sC) 3 0 1)) as Hg6.
  { subst g6. cbn [snd].
    rewrite (get_hit _ C (mkEntry vC t4 t4 0 sC (exp t4))); simpl.
    - rewrite decide_True by done. simpl.
      rewrite insert_insert_eq. done.
    - apply lookup_insert_eq.
    - apply (alive_by_default _ ttl0 t4); [done|]. intros H. by apply Halive.
    - apply elem_of_cons. by left. }
  clearbody g6. subst g6. intros g7.
  assert (g7 = (PyNone, mkCache 2 M ttl0
                 (<[ C := mkEntry vC t4 t6 1 sC (exp t4) ]>
                    {[ A := mkEntry vA t1 t5 2 sA (exp t1) ]})
                 [A; C] (sA + sC) 3 1 1)) as Hg7.
  { subst g7. cbn [snd]. rewrite get_absent; [done|]. simpl.
    rewrite lookup_insert_ne by done. by apply lookup_singleton_ne. }
  clearbody g7. subst g7. simpl.
  split_and!; try done.
  - rewrite lookup_insert_ne by done. by apply lookup_singleton_ne.
  - rewrite lookup_insert_ne by done. by rewrite lookup_singleton_eq.
  - by rewrite lookup_insert_eq.
  - rewrite map_size_insert_None by (by apply lookup_singleton_ne).
    by rewrite map_size_singleton.
Qed.

Lemma lru_evicts_least_recently_used_witness :
  let c1 := LRUCache_set (LRUCache_init 2 100 0) "A" (PyInt 1) None 10 in
  let c2 := LRUCache_set c1 "B" (PyInt 2) None 20 in
  let g3 := LRUCache_get c2 "A" 30 in
  let c4 := LRUCache_set g3.2 "C" (PyInt 3) None 40 in
  let g5 := LRUCache_get c4 "A" 50 in
  let g6 := LRUCache_get g5.2 "C" 60 in
  let g7 := LRUCache_get g6.2 "B" 70 in
  g3.1 = PyInt 1
  ∧ evictions c2 = 0 ∧ evictions c4 = 1
  ∧ _cache c4 !! "B" = None
  ∧ is_Some (_cache c4 !! "A") ∧ is_Some (_cache c4 !! "C")
  ∧ size (_cache c4) = 2%nat
  ∧ g5.1 = PyInt 1 ∧ hits g5.2 = hits c4 + 1 ∧ misses g5.2 = misses c4
  ∧ g6.1 = PyInt 3 ∧ hits g6.2 = hits g5.2 + 1 ∧ misses g6.2 = misses g5.2
  ∧ g7.1 = PyNone ∧ misses g7.2 = misses g6.2 + 1 ∧ hits g7.2 = hits g6.2.
Proof.
  apply (lru_evicts_least_recently_used 100 0 "A" "B" "C"
           (PyInt 1) (PyInt 2) (PyInt 3) 10 20 30 40 50 60 70);
    [done|done|done|simpl; lia|simpl; lia|lia].
Defined.

(** ** Statistics *)

Lemma remove_entries_counters c keys :
  hits (foldl _remove_entry c keys) = hits c
  ∧ misses (foldl _remove_entry c keys) = misses c
  ∧ max_memory_bytes (foldl _remove_entry c keys) = max_memory_bytes c.
Proof.
  revert c. induction keys as [|k keys IH]; intros c; simpl; [done|].
  destruct (IH (_remove_entry c k)) as (-> & -> & ->).
  destruct (remove_entry_counters c k) as (-> & -> & _).
  destruct (remove_entry_config c k) as (_ & -> & _). done.
Qed.

Lemma set_counters c key value ttl now :
  hits (LRUCache_set c key value ttl now) = hits c
  ∧ misses (LRUCache_set c key value ttl now) = misses c.
Proof.
  unfold LRUCache_set. simpl.
  destruct (make_space_config
              (length (_access_order (if bool_decide (is_Some (_cache c !! key))
                                      then _remove_entry c key else c)))
              (if bool_decide (is_Some (_cache c !! key))
               then _remove_entry c key else c) (_estimate_size value))
    as (_ & _ & _ & -> & ->).
  destruct (bool_decide (is_Some (_cache c !! key))); [|done].
  destruct (remove_entry_counters c key) as (-> & -> & _). done.
Qed.

(** Only [get] counts, and it counts once. *)
Lemma run_op_counters c op :
  hits (run_op c op) + misses (run_op c op)
    = hits c + misses c + (if is_get op then 1 else 0)
  ∧ hits c ≤ hits (run_op c op)
  ∧ misses c ≤ misses (run_op c op)
  ∧ max_memory_bytes (run_op c op) = max_memory_bytes c.
Proof.
  destruct op as [key now|key value ttl now|key| |now]; cbn [run_op is_get].
  - unfold LRUCache_get. destruct (_cache c !! key) as [entry|]; simpl.
    + destruct (is_expired entry now); simpl.
      * destruct (remove_entry_counters c key) as (-> & -> & _).
        destruct (remove_entry_config c key) as (_ & -> & _). lia.
      * lia.
    + lia.
  - destruct (set_counters c key value ttl now) as (-> & ->).
    destruct (set_config c key value ttl now) as (_ & -> & _). lia.
  - unfold LRUCache_delete. case_bool_decide; simpl; [|lia].
    destruct (remove_entry_counters c key) as (-> & -> & _).
    destruct (remove_entry_config c key) as (_ & -> & _). lia.
  - unfold LRUCache_clear. simpl. lia.
  - unfold LRUCache_cleanup_expired. cbn [snd].
    match goal with |- context [foldl _remove_entry c ?l] =>
      destruct (remove_entries_counters c l) as (-> & -> & ->) end. lia.
Qed.

Lemma run_ops_counters c ops :
  hits (run_ops c ops) + misses (run_ops c ops)
    = hits c + misses c + Z.of_nat (length (filter (fun op => is_get op = true) ops))
  ∧ hits c ≤ hits (run_ops c ops)
  ∧ misses c ≤ misses (run_ops c ops)
  ∧ max_memory_bytes (run_ops c ops) = max_memory_bytes c.
Proof.
  revert c. induction ops as [|op ops IH]; intros c; simpl.
  - split_and!; lia.
  - destruct (IH (run_op c op)) as (H1 & H2 & H3 & H4).
    destruct (run_op_counters c op) as (H5 & H6 & H7 & H8).
    unfold run_ops in *. rewrite H1, H4, H8.
    split_and!; try lia.
    rewrite filter_cons. destruct (decide (is_get op = true)) as [E|E].
    + rewrite E in H5. simpl. lia.
    + apply not_true_is_false in E. rewrite E in H5. lia.
Qed.

Lemma true_div_megabytes n : true_div (n * 1024 * 1024) (1024 * 1024) = Qc_of_Z n.
Proof.
  unfold true_div.
  replace (n * 1024 * 1024) with (n * (1024 * 1024)) by lia.
  rewrite Z2Qc_inj_mul.
  apply Qcdiv_mult_l. intros H. rewrite <- Z2Qc_inj_0 in H.
  apply Z2Qc_inj in H. lia.
Qed.

(** C7, as it is stated, fails: the dictionary of [get_stats] reports the
    memory in megabytes.  After one [set] of an integer the memory counter
    is 8 bytes and the budget 104857600 bytes, and no value of the
    dictionary is either number. *)
Lemma get_stats_holds_no_byte_count :
  let c := LRUCache_set (LRUCache_init 1000 100 3600) "k" (PyInt 7) None 0 in
  _current_memory c = 8
  ∧ max_memory_bytes c = 104857600
  ∧ ∀ key x, dict_get (get_stats c) key = Some x →
      num_value x ≠ Qc_of_Z (_current_memory c)
      ∧ num_value x ≠ Qc_of_Z (max_memory_bytes c).
Proof.
  intros c.
  assert (get_stats c =
          [ ("size", PyI 1); ("max_size", PyI 1000);
            ("memory_used_mb", PyF (true_div 8 (1024 * 1024)));
            ("max_memory_mb", PyF (true_div 104857600 (1024 * 1024)));
            ("hits", PyI 0); ("misses", PyI 0); ("hit_rate", PyI 0);
            ("evictions", PyI 0) ]%string) as Hstats by (vm_compute; reflexivity).
  assert (_current_memory c = 8) as Hmem by (vm_compute; reflexivity).
  assert (max_memory_bytes c = 104857600) as Hmax by (vm_compute; reflexivity).
  split_and!; [done|done|].
  intros key x. rewrite Hstats, Hmem, Hmax. clear. simpl.
  repeat (case_decide; [intros [= <-]; simpl;
            split; intros Hq; apply (f_equal Qcanon.this) in Hq;
            vm_compute in Hq; discriminate|]).
  done.
Qed.

(** C7, amended.  [get_stats] returns a dictionary with the keys [size],
    [max_size], [memory_used_mb], [max_memory_mb], [hits], [misses],
    [hit_rate] and [evictions].  [memory_used_mb] is the memory counter
    divided by 1024 * 1024 and [max_memory_mb] the budget in bytes divided
    by 1024 * 1024, which on every cache run from [LRUCache_init] is the
    configured number of megabytes. *)
Theorem get_stats_fields :
  (∀ c,
     (get_stats c).*1 = [ "size"; "max_size"; "memory_used_mb"; "max_memory_mb";
                          "hits"; "misses"; "hit_rate"; "evictions" ]%string
     ∧ dict_get (get_stats c) "size" = Some (PyI (Z.of_nat (size (_cache c))))
     ∧ dict_get (get_stats c) "max_size" = Some (PyI (max_size c))
     ∧ dict_get (get_stats c) "memory_used_mb"
         = Some (PyF (true_div (_current_memory c) (1024 * 1024)))
     ∧ dict_get (get_stats c) "max_memory_mb"
         = Some (PyF (true_div (max_memory_bytes c) (1024 * 1024)))
     ∧ dict_get (get_stats c) "hits" = Some (PyI (hits c))
     ∧ dict_get (get_stats c) "misses" = Some (PyI (misses c))
     ∧ is_Some (dict_get (get_stats c) "hit_rate")
     ∧ dict_get (get_stats c) "evictions" = Some (PyI (evictions c)))
  ∧ (∀ max_size max_memory_mb default_ttl ops,
       dict_get (get_stats (run_ops (LRUCache_init max_size max_memory_mb default_ttl) ops))
                "max_memory_mb"
       = Some (PyF (Qc_of_Z max_memory_mb))).
Proof.
  split.
  - intros c. unfold get_stats. split_and!; try reflexivity.
    simpl. eauto.
  - intros max_size max_memory_mb default_ttl ops.
    set (c := run_ops _ ops).
    assert (max_memory_bytes c = max_memory_mb * 1024 * 1024) as Hb.
    { subst c. by destruct (run_ops_counters
                 (LRUCache_init max_size max_memory_mb default_ttl) ops)
        as (_ & _ & _ & ->). }
    change (dict_get (get_stats c) "max_memory_mb")
      with (Some (PyF (true_div (max_memory_bytes c) (1024 * 1024)))).
    by rewrite Hb, true_div_megabytes.
Qed.

(** C8.  After every run of cache operations [hits + misses] is the number
    of [get] calls made, and the [hit_rate] of [get_stats] is
    [hits / (hits + misses)] when that number is positive and 0 when no
    [get] was made. *)
Theorem hit_rate_is_hits_over_requests (max_size max_memory_mb default_ttl : Z)
    (ops : list cache_op) :
  let c := run_ops (LRUCache_init max_size max_memory_mb default_ttl) ops in
  let gets := Z.of_nat (length (filter (fun op => is_get op = true) ops)) in
  hits c + misses c = gets ∧ 0 ≤ hits c ∧ 0 ≤ misses c
  ∧ ∃ rate, dict_get (get_stats c) "hit_rate" = Some rate
      ∧ num_value rate
        = (if bool_decide (0 < hits c + misses c)
           then (Qc_of_Z (hits c) / Qc_of_Z (hits c + misses c))%Qc
           else 0%Qc)
      ∧ (gets = 0 → num_value rate = 0%Qc).
Proof.
  intros c gets.
  destruct (run_ops_counters (LRUCache_init max_size max_memory_mb default_ttl) ops)
    as (Hsum & Hh & Hm & _).
  fold c in Hsum, Hh, Hm. simpl in Hsum, Hh, Hm. fold gets in Hsum.
  split_and!; [lia|lia|lia|].
  exists (if bool_decide (0 < hits c + misses c)
          then PyF (true_div (hits c) (hits c + misses c)) else PyI 0).
  split_and!.
  - reflexivity.
  - case_bool_decide; simpl; [done|]. apply Z2Qc_inj_0.
  - intros Hg. rewrite bool_decide_eq_false_2 by lia. simpl. apply Z2Qc_inj_0.
Qed.

(** ** A cached [None] *)

Lemma get_alive c key entry now :
  _cache c !! key = Some entry → is_expired entry now = false →
  (LRUCache_get c key now).1 = data entry
  ∧ hits (LRUCache_get c key now).2 = hits c + 1
  ∧ misses (LRUCache_get c key now).2 = misses c.
Proof. intros Hk Hexp. unfold LRUCache_get. by rewrite Hk, Hexp. Qed.

Lemma get_default_ttl c key now :
  default_ttl (LRUCache_get c key now).2 = default_ttl c.
Proof.
  unfold LRUCache_get. destruct (_cache c !! key) as [entry|]; [|done].
  destruct (is_expired entry now); simpl; [|done].
  by destruct (remove_entry_config c key) as (_ & _ & ->).
Qed.

(** A call of the wrapper that does not call [func] returns a value that
    is not [None]. *)
Lemma wrapper_result func cache_key cache args t_get t_set :
  let w := wrapper func cache_key cache args t_get t_set in
  (w.2 = true
   ∧ w.1.1 = func args
   ∧ w.1.2 = LRUCache_set (LRUCache_get cache (cache_key args) t_get).2
                          (cache_key args) (func args) None t_set)
  ∨ (w.2 = false ∧ w.1.1 ≠ PyNone
     ∧ w.1.1 = (LRUCache_get cache (cache_key args) t_get).1).
Proof.
  unfold wrapper.
  destruct (LRUCache_get cache (cache_key args) t_get) as [result cache1].
  destruct result; simpl; (by left) || (by right).
Qed.

Lemma get_lookup_data c key now k e' :
  _cache (LRUCache_get c key now).2 !! k = Some e' →
  ∃ e, _cache c !! k = Some e ∧ data e' = data e.
Proof.
  unfold LRUCache_get. destruct (_cache c !! key) as [entry|] eqn:E; simpl.
  - destruct (is_expired entry now); simpl.
    + rewrite remove_entry_cache. intros H.
      apply lookup_delete_Some in H as [_ H]. eauto.
    + destruct (decide (key = k)) as [<-|Hne].
      * rewrite lookup_insert_eq. intros [= <-]. eauto.
      * rewrite lookup_insert_ne by done. eauto.
  - eauto.
Qed.

Lemma get_result_data c key now :
  (LRUCache_get c key now).1 = PyNone
  ∨ ∃ e, _cache c !! key = Some e ∧ (LRUCache_get c key now).1 = data e.
Proof.
  unfold LRUCache_get. destruct (_cache c !! key) as [entry|] eqn:E; simpl.
  - destruct (is_expired entry now); simpl; [by left|]. right. eauto.
  - by left.
Qed.

Lemma set_lookup_data c key value ttl now k e' :
  _cache (LRUCache_set c key value ttl now) !! k = Some e' →
  data e' = value ∨ _cache c !! k = Some e'.
Proof.
  unfold LRUCache_set. simpl. destruct (decide (key = k)) as [<-|Hne].
  - rewrite lookup_insert_eq. intros [= <-]. by left.
  - rewrite lookup_insert_ne by done. intros H. right.
    apply make_space_lookup in H.
    destruct (bool_decide (is_Some (_cache c !! key))); [|done].
    rewrite remove_entry_cache in H. by apply lookup_delete_Some in H as [_ H].
Qed.

(** On a cache that stores nothing but [None], every call of the wrapper
    calls the function when the function returns [None]. *)
Lemma wrapper_calls_all_None func cache_key cache calls :
  (∀ k e, _cache cache !! k = Some e → data e = PyNone) →
  (∀ call, call ∈ calls → func call.1.1 = PyNone) →
  (wrapper_calls func cache_key cache calls).2 = length calls.
Proof.
  revert cache.
  induction calls as [|[[args t1] t2] calls IH]; intros cache Hinv Hnone; [done|].
  simpl.
  assert (func args = PyNone) as Hf.
  { apply (Hnone (args, t1, t2)). apply elem_of_cons. by left. }
  destruct (wrapper_result func cache_key cache args t1 t2)
    as [(Hc & Hr & Hs)|(_ & Hne & Hr)].
  - destruct (wrapper func cache_key cache args t1 t2) as [[r cache1] called].
    simpl in Hc, Hs. subst called.
    specialize (IH cache1).
    destruct (wrapper_calls func cache_key cache1 calls) as [cache2 n].
    simpl in *. f_equal. apply IH.
    + intros k e Hk. rewrite Hs in Hk.
      apply set_lookup_data in Hk as [Hk|Hk]; [by rewrite Hk|].
      apply get_lookup_data in Hk as (e0 & Hk0 & ->). eauto.
    + intros call Hin. apply Hnone. apply elem_of_cons. by right.
  - exfalso. rewrite Hr in Hne.
    destruct (get_result_data cache (cache_key args) t1) as [Hg|(e & Hk & Hg)];
      [done|].
    rewrite Hg in Hne. apply Hinv in Hk. done.
Qed.

(** C10.  [get] of a key that holds an unexpired [None] returns [None] and
    counts a hit; [get] of an absent key returns [None] too.  So every call
    of the [timed_cache] wrapper whose result is [None] has called the
    wrapped function; the [None] is stored, and the next call with the same
    arguments, made before the entry expires, counts a hit and calls the
    function again.  When the function returns [None] on all the arguments
    of a run of calls on the cache the decorator created, it is called once
    per call. *)
Theorem cached_None_is_recomputed :
  (∀ c key entry now,
     _cache c !! key = Some entry → data entry = PyNone →
     is_expired entry now = false →
     (LRUCache_get c key now).1 = PyNone
     ∧ hits (LRUCache_get c key now).2 = hits c + 1
     ∧ misses (LRUCache_get c key now).2 = misses c)
  ∧ (∀ c key now,
       _cache c !! key = None → (LRUCache_get c key now).1 = PyNone)
  ∧ (∀ func cache_key cache args t1 t2,
       let w := wrapper func cache_key cache args t1 t2 in
       w.1.1 = PyNone → w.2 = true ∧ func args = PyNone)
  ∧ (∀ func cache_key cache args t1 t2 t3 t4,
       let w1 := wrapper func cache_key cache args t1 t2 in
       let w2 := wrapper func cache_key w1.1.2 args t3 t4 in
       w1.1.1 = PyNone →
       (0 < default_ttl cache → t3 ≤ t2 + timedelta_seconds (default_ttl cache)) →
       (∃ entry, _cache w1.1.2 !! cache_key args = Some entry
                 ∧ data entry = PyNone ∧ is_expired entry t3 = false)
       ∧ hits w2.1.2 = hits w1.1.2 + 1
       ∧ w2.2 = true
       ∧ w2.1.1 = PyNone)
  ∧ (∀ func cache_key ttl max_size calls,
       (∀ call, call ∈ calls → func call.1.1 = PyNone) →
       (wrapper_calls func cache_key (timed_cache_new ttl max_size) calls).2
       = length calls).
Proof.
  assert (∀ func cache_key cache args t1 t2,
            (wrapper func cache_key cache args t1 t2).1.1 = PyNone →
            (wrapper func cache_key cache args t1 t2).2 = true
            ∧ func args = PyNone
            ∧ (wrapper func cache_key cache args t1 t2).1.2
              = LRUCache_set (LRUCache_get cache (cache_key args) t1).2
                             (cache_key args) PyNone None t2) as Hcalled.
  { intros func cache_key cache args t1 t2 Hres.
    destruct (wrapper_result func cache_key cache args t1 t2)
      as [(Hc & Hr & Hs)|(_ & Hne & _)]; [|done].
    rewrite Hr in Hres. rewrite Hs, Hres. done. }
  split_and!.
  - intros c key entry now Hk Hdata Hexp.
    destruct (get_alive c key entry now) as (-> & -> & ->); done.
  - intros c key now Hk. unfold LRUCache_get. by rewrite Hk.
  - intros func cache_key cache args t1 t2 w Hres.
    by destruct (Hcalled func cache_key cache args t1 t2 Hres) as (? & ? & _).
  - intros func cache_key cache args t1 t2 t3 t4 w1 w2 Hres Halive.
    destruct (Hcalled func cache_key cache args t1 t2 Hres) as (_ & Hf & Hs).
    set (key := cache_key args) in *.
    set (entry := mkEntry PyNone t2 t2 0 (_estimate_size PyNone)
                    (new_expiry (LRUCache_get cache key t1).2 None t2)).
    assert (_cache w1.1.2 !! key = Some entry) as Hk.
    { subst w1. rewrite Hs. apply set_lookup. }
    assert (is_expired entry t3 = false) as Hexp.
    { apply default_expiry_alive. by rewrite get_default_ttl. }
    destruct (get_alive w1.1.2 key entry t3 Hk Hexp) as (Hg1 & Hg2 & _).
    destruct (wrapper_result func cache_key w1.1.2 args t3 t4)
      as [(Hc & Hr & Hs2)|(_ & Hne & Hr)].
    + fold w2 in Hc, Hr, Hs2. fold key in Hs2. split_and!.
      * by exists entry.
      * rewrite Hs2. destruct (set_counters (LRUCache_get w1.1.2 key t3).2 key
                                 (func args) None t4) as (-> & _). done.
      * done.
      * by rewrite Hr.
    + fold w2 in Hne, Hr. fold key in Hr. rewrite Hr, Hg1 in Hne. done.
  - intros func cache_key ttl max_size calls Hnone.
    apply wrapper_calls_all_None; [|done].
    intros k e. unfold timed_cache_new. simpl. by rewrite lookup_empty.
Qed.

Lemma cached_None_is_recomputed_witness :
  let func := fun _ : pyobj => PyNone in
  let cache_key := fun _ : pyobj => "k"%string in
  let w1 := wrapper func cache_key (timed_cache_new 3600 100) (PyInt 1) 0 1 in
  let w2 := wrapper func cache_key w1.1.2 (PyInt 1) 2 3 in
  (∃ entry, _cache w1.1.2 !! cache_key (PyInt 1) = Some entry
            ∧ data entry = PyNone ∧ is_expired entry 2 = false)
  ∧ hits w2.1.2 = hits w1.1.2 + 1
  ∧ w2.2 = true
  ∧ w2.1.1 = PyNone.
Proof.
  apply (proj1 (proj2 (proj2 (proj2 cached_None_is_recomputed)))
           (fun _ : pyobj => PyNone) (fun _ : pyobj => "k"%string)
           (timed_cache_new 3600 100) (PyInt 1) 0 1 2 3).
  - reflexivity.
  - simpl. unfold timedelta_seconds. lia.
Defined.

(** ** The bounded list of samples *)

Lemma py_slice_from_zero {A} (l : list A) : py_slice_from l (- 0) = l.
Proof.
  unfold py_slice_from. change (- 0) with 0.
  rewrite bool_decide_eq_false_2 by lia.
  replace (Z.to_nat (Z.min 0 (Z.of_nat (length l)))) with O by lia. done.
Qed.

(** [l[-n:]] for [n > 0] keeps the last [n] elements. *)
Lemma py_slice_from_negative {A} (l : list A) (n : Z) :
  0 < n → py_slice_from l (- n) = drop (length l - Z.to_nat n) l.
Proof.
  intros Hn. unfold py_slice_from.
  rewrite bool_decide_eq_true_2 by lia. f_equal. lia.
Qed.

Lemma record_operation_zero pm name d mu hit md now :
  max_metrics pm = 0 →
  record_operation pm name d mu hit md now
  = mkMonitor 0 (metrics pm ++ [mkMetrics name d mu hit now md]).
Proof.
  intros H0. unfold record_operation. rewrite H0.
  rewrite bool_decide_eq_true_2 by (rewrite length_app; simpl; lia).
  by rewrite py_slice_from_zero.
Qed.

Lemma record_all_zero pm samples :
  max_metrics pm = 0 →
  record_all pm samples = mkMonitor 0 (metrics pm ++ samples).
Proof.
  revert pm. induction samples as [|s samples IH]; intros pm H0; simpl.
  - rewrite app_nil_r. destruct pm; simpl in *. by subst.
  - unfold record_all in IH. rewrite IH by (by rewrite record_operation_zero).
    rewrite record_operation_zero by done. simpl. rewrite <- app_assoc.
    by destruct s.
Qed.

(** With a positive capacity one more sample leaves the last [max_metrics]
    of what was recorded. *)
Lemma record_operation_positive pm name d mu hit md now :
  0 < max_metrics pm →
  metrics (record_operation pm name d mu hit md now)
  = drop (length (metrics pm ++ [mkMetrics name d mu hit now md])
          - Z.to_nat (max_metrics pm))
         (metrics pm ++ [mkMetrics name d mu hit now md])
  ∧ max_metrics (record_operation pm name d mu hit md now) = max_metrics pm.
Proof.
  intros Hpos. unfold record_operation. case_bool_decide as Hlen; simpl.
  - by rewrite py_slice_from_negative.
  - split; [|done].
    match goal with |- _ = drop ?n _ => replace n with O by lia end. done.
Qed.

Lemma record_all_positive pm samples :
  0 < max_metrics pm →
  (length (metrics pm) ≤ Z.to_nat (max_metrics pm))%nat →
  metrics (record_all pm samples)
  = drop (length (metrics pm ++ samples) - Z.to_nat (max_metrics pm))
         (metrics pm ++ samples)
  ∧ max_metrics (record_all pm samples) = max_metrics pm.
Proof.
  intros Hpos Hlen. induction samples as [|s samples IH] using rev_ind.
  - simpl. rewrite app_nil_r. split; [|done].
    replace (length (metrics pm) - Z.to_nat (max_metrics pm))%nat with O by lia.
    done.
  - unfold record_all in *. rewrite foldl_app. simpl.
    destruct IH as [IHm IHc].
    match goal with |- context [record_operation ?q _ _ _ _ _ _] =>
      destruct (record_operation_positive q (operation_name s) (duration s)
                  (memory_used s) (cache_hit s) (metadata s) (timestamp s))
        as [-> ->]; [by rewrite IHc|] end.
    rewrite IHm, IHc. split; [|done].
    replace (mkMetrics (operation_name s) (duration s) (memory_used s)
               (cache_hit s) (timestamp s) (metadata s)) with s by (by destruct s).
    rewrite (app_assoc (metrics pm)).
    assert (0 < Z.to_nat (max_metrics pm))%nat as Hn by lia. revert Hn.
    generalize (Z.to_nat (max_metrics pm)) as n.
    generalize (metrics pm ++ samples) as l. intros l n Hn.
    rewrite !length_app, length_drop. simpl.
    destruct (decide (length l ≤ n)%nat) as [Hle|Hgt].
    + replace (length l - n)%nat with O by lia. simpl. f_equal. lia.
    + rewrite drop_app_le by (rewrite length_drop; lia).
      rewrite (drop_app_le l) by lia.
      rewrite drop_drop. f_equal. f_equal. lia.
Qed.

(** C6, where the code departs from it.  A monitor made with
    [max_metrics = 0] never drops a sample: after any samples are recorded
    all of them are stored, so the list is longer than the capacity as soon
    as one is recorded, and [total_operations] after 0 + 5 samples is 5,
    not 0. *)
Theorem record_operation_zero_capacity_keeps_all :
  (∀ samples,
     metrics (record_all (PerformanceMonitor_init 0) samples) = samples)
  ∧ (∀ s1 s2 s3 s4 s5,
       dict_get (get_overall_stats
                   (record_all (PerformanceMonitor_init 0) [s1; s2; s3; s4; s5]))
                "total_operations"
       = Some (StatNum (PyI 5))).
Proof.
  split.
  - intros samples. by rewrite record_all_zero.
  - intros s1 s2 s3 s4 s5. by rewrite record_all_zero.
Qed.

(** With a capacity of at least one the list stays within the capacity and
    holds the most recent samples in order; after [max_metrics + 5] samples
    [total_operations] is [max_metrics] and the five oldest are gone. *)
Theorem record_operation_keeps_most_recent (max_metrics : Z)
    (samples : list PerformanceMetrics) :
  0 < max_metrics →
  let pm := record_all (PerformanceMonitor_init max_metrics) samples in
  metrics pm = drop (length samples - Z.to_nat max_metrics) samples
  ∧ Z.of_nat (length (metrics pm)) ≤ max_metrics
  ∧ (length samples = (Z.to_nat max_metrics + 5)%nat →
     metrics pm = drop 5 samples
     ∧ dict_get (get_overall_stats pm) "total_operations"
       = Some (StatNum (PyI max_metrics))).
Proof.
  intros Hpos pm.
  destruct (record_all_positive (PerformanceMonitor_init max_metrics) samples)
    as [Hm Hc]; [done|simpl; lia|].
  fold pm in Hm, Hc. simpl in Hm, Hc.
  split_and!.
  - done.
  - rewrite Hm, length_drop. lia.
  - intros Hlen. rewrite Hlen in Hm.
    replace (Z.to_nat max_metrics + 5 - Z.to_nat max_metrics)%nat with 5%nat in Hm by lia.
    split; [done|].
    unfold get_overall_stats. rewrite Hm.
    destruct (drop 5 samples) as [|m rest] eqn:E.
    + apply (f_equal length) in E. rewrite length_drop in E. simpl in E. lia.
    + cbn [dict_get]. rewrite decide_True by done.
      do 3 f_equal. rewrite <- E, length_drop. lia.
Qed.

Lemma record_operation_keeps_most_recent_witness :
  let pm := record_all (PerformanceMonitor_init 2)
              [ mkMetrics "a" 0 0 false 0 []; mkMetrics "b" 0 0 false 1 [];
                mkMetrics "c" 0 0 true 2 [] ]%string in
  metrics pm
  = drop (3 - Z.to_nat 2)
      [ mkMetrics "a" 0 0 false 0 []; mkMetrics "b" 0 0 false 1 [];
        mkMetrics "c" 0 0 true 2 [] ]%string
  ∧ Z.of_nat (length (metrics pm)) ≤ 2
  ∧ (3%nat = (Z.to_nat 2 + 5)%nat →
     metrics pm
     = drop 5 [ mkMetrics "a" 0 0 false 0 []; mkMetrics "b" 0 0 false 1 [];
                mkMetrics "c" 0 0 true 2 [] ]%string
     ∧ dict_get (get_overall_stats pm) "total_operations"
       = Some (StatNum (PyI 2))).
Proof.
  apply (record_operation_keeps_most_recent 2
           [ mkMetrics "a" 0 0 false 0 []; mkMetrics "b" 0 0 false 1 [];
             mkMetrics "c" 0 0 true 2 [] ]%string).
  lia.
Defined.

(** ** One future per request *)

Lemma process_single_request_pending heap r :
  heap !! request_future r = Some Pending →
  _process_single_request heap r
  = (<[request_future r := resolution (request_callback r (request_data r))]> heap,
     None).
Proof.
  intros Hp. unfold _process_single_request, set_result, set_exception.
  destruct (request_callback r (request_data r)); by rewrite Hp.
Qed.

Lemma run_tasks_unresolved heap finishing :
  batch_unresolved heap finishing →
  (run_tasks heap finishing).2 = []
  ∧ (∀ r, r ∈ finishing →
       (run_tasks heap finishing).1 !! request_future r
       = Some (resolution (request_callback r (request_data r))))
  ∧ (∀ fut, fut ∉ request_future <$> finishing →
       (run_tasks heap finishing).1 !! fut = heap !! fut).
Proof.
  revert heap. induction finishing as [|r rest IH]; intros heap [Hnd Hpend].
  - simpl. split_and!; [done| |done]. intros r Hr. by apply elem_of_nil in Hr.
  - rewrite fmap_cons in Hnd. apply list.NoDup_cons in Hnd as [Hr Hnd].
    assert (heap !! request_future r = Some Pending) as Hp.
    { apply Hpend. apply elem_of_cons. by left. }
    cbn [run_tasks]. rewrite process_single_request_pending by done.
    set (heap1 := <[request_future r := _]> heap).
    assert (batch_unresolved heap1 rest) as Hrest.
    { split; [done|]. intros r' Hr'. subst heap1.
      rewrite list_lookup_insert_ne.
      - apply Hpend. apply elem_of_cons. by right.
      - intros Heq. apply Hr. rewrite Heq. by apply list_elem_of_fmap_2. }
    destruct (IH heap1 Hrest) as (Hesc & Hown & Hother).
    destruct (run_tasks heap1 rest) as [heap2 others]. cbn [fst snd] in *.
    split_and!.
    + done.
    + intros r' Hr'. apply elem_of_cons in Hr' as [->|Hr']; [|by apply Hown].
      rewrite Hother by done. subst heap1.
      apply list_lookup_insert_eq. by eapply lookup_lt_Some.
    + intros fut Hfut. apply not_elem_of_cons in Hfut as [Hne Hfut].
      rewrite Hother by done. subst heap1. by rewrite list_lookup_insert_ne.
Qed.

(** A queue filled by [add_request] holds distinct futures, none of them
    written. *)
Lemma add_requests_unresolved bp heap submitted :
  batch_unresolved heap (pending_requests bp) →
  (∀ r, r ∈ pending_requests bp → (request_future r < length heap)%nat) →
  batch_unresolved (add_requests bp heap submitted).2
                   (pending_requests (add_requests bp heap submitted).1).
Proof.
  revert bp heap. induction submitted as [|[d cb] rest IH];
    intros bp heap [Hnd Hpend] Hlt; [done|].
  simpl. apply IH.
  - split; simpl.
    + rewrite fmap_app. apply list.NoDup_app. split_and!; [done| |].
      * intros fut Hin Hnew. simpl in Hnew. apply list_elem_of_singleton in Hnew as ->.
        apply list_elem_of_fmap in Hin as (r & Heq & Hr). apply Hlt in Hr. lia.
      * simpl. apply NoDup_singleton.
    + intros r Hr. apply elem_of_app in Hr as [Hr|Hr].
      * rewrite lookup_app_l by (by apply Hlt). by apply Hpend.
      * apply list_elem_of_singleton in Hr as ->. simpl.
        rewrite lookup_app_r by lia. by rewrite Nat.sub_diag.
  - simpl. intros r Hr. rewrite length_app. simpl.
    apply elem_of_app in Hr as [Hr|Hr].
    + apply Hlt in Hr. lia.
    + apply list_elem_of_singleton in Hr as ->. simpl. lia.
Qed.

(** C4.  When [_process_batch] dispatches a snapshot whose futures are
    distinct and not yet written, whatever the order in which the callbacks
    finish, each future ends with the outcome of its own request: the
    exception its callback raised, or the value its callback returned.  No
    exception escapes a task, so [gather] raises nothing; a future outside
    the snapshot is not touched, the queue is left empty and [_processing]
    is reset. *)
Theorem batch_requests_resolve_independently (bp : BatchProcessor)
    (heap : future_heap) (finishing : list request) :
  _processing bp = false →
  batch_unresolved heap (pending_requests bp) →
  finishing ≡ₚ pending_requests bp →
  let batch := pending_requests bp in
  let done := _process_batch bp heap finishing in
  done.2 = None
  ∧ pending_requests done.1.1 = []
  ∧ _processing done.1.1 = false
  ∧ (∀ r e, r ∈ batch → request_callback r (request_data r) = Raises e →
       done.1.2 !! request_future r = Some (FinishedException e))
  ∧ (∀ r v, r ∈ batch → request_callback r (request_data r) = Returns v →
       done.1.2 !! request_future r = Some (FinishedResult v))
  ∧ (∀ fut, fut ∉ request_future <$> batch → done.1.2 !! fut = heap !! fut).
Proof.
  intros Hidle [Hnd Hpend] Hperm batch done.
  assert (batch_unresolved heap finishing) as Hfin.
  { split.
    - by rewrite Hperm.
    - intros r Hr. apply Hpend. by rewrite <- Hperm. }
  destruct (run_tasks_unresolved heap finishing Hfin) as (Hesc & Hown & Hother).
  subst done. unfold _process_batch. rewrite Hidle. cbn [take_snapshot pending_requests].
  fold batch. destruct batch as [|r0 rest] eqn:Hbatch.
  - simpl. split_and!; try done.
    + intros r e Hr. by apply elem_of_nil in Hr.
    + intros r v Hr. by apply elem_of_nil in Hr.
  - destruct (run_tasks heap finishing) as [heap1 escaped]. simpl in Hesc, Hown, Hother.
    subst escaped. simpl. fold batch in Hperm. rewrite Hbatch in Hperm.
    split_and!; try done.
    + intros r e Hr Hcb. rewrite Hown by (by rewrite Hperm). by rewrite Hcb.
    + intros r v Hr Hcb. rewrite Hown by (by rewrite Hperm). by rewrite Hcb.
    + intros fut Hfut. apply Hother. by rewrite Hperm.
Qed.

Lemma batch_requests_resolve_independently_witness :
  let ok := fun d : pyobj => Returns d in
  let boom := fun _ : pyobj => Raises (UserException "ValueError" []) in
  let queued := add_requests (mkBatch 10 [] false) []
                  [(PyInt 1, ok); (PyInt 2, ok); (PyInt 3, boom); (PyInt 4, ok)] in
  let batch := pending_requests queued.1 in
  let done := _process_batch queued.1 queued.2 (reverse batch) in
  done.2 = None
  ∧ pending_requests done.1.1 = []
  ∧ _processing done.1.1 = false
  ∧ (∀ r e, r ∈ batch → request_callback r (request_data r) = Raises e →
       done.1.2 !! request_future r = Some (FinishedException e))
  ∧ (∀ r v, r ∈ batch → request_callback r (request_data r) = Returns v →
       done.1.2 !! request_future r = Some (FinishedResult v))
  ∧ (∀ fut, fut ∉ request_future <$> batch → done.1.2 !! fut = queued.2 !! fut).
Proof.
  intros ok boom queued batch.
  apply (batch_requests_resolve_independently queued.1 queued.2 (reverse batch)).
  - reflexivity.
  - apply (add_requests_unresolved (mkBatch 10 [] false) []).
    + split; [constructor|]. intros r Hr. by apply elem_of_nil in Hr.
    + intros r Hr. by apply elem_of_nil in Hr.
  - apply reverse_Permutation.
Defined.

(** ** Permits *)

Lemma executing_cons s (l : list submit_state) :
  Z.of_nat (length (filter (fun s => is_executing s = true) (s :: l)))
  = (if is_executing s then 1 else 0)
    + Z.of_nat (length (filter (fun s => is_executing s = true) l)).
Proof.
  rewrite filter_cons. destruct (decide (is_executing s = true)) as [E|E].
  - rewrite E. simpl. lia.
  - apply not_true_is_false in E. rewrite E. lia.
Qed.

Lemma executing_app (l k : list submit_state) :
  Z.of_nat (length (filter (fun s => is_executing s = true) (l ++ k)))
  = Z.of_nat (length (filter (fun s => is_executing s = true) l))
    + Z.of_nat (length (filter (fun s => is_executing s = true) k)).
Proof. rewrite list.filter_app, length_app. lia. Qed.

Lemma executing_insert (l : list submit_state) i x y :
  l !! i = Some x →
  Z.of_nat (length (filter (fun s => is_executing s = true) (<[i := y]> l)))
  = Z.of_nat (length (filter (fun s => is_executing s = true) l))
    - (if is_executing x then 1 else 0) + (if is_executing y then 1 else 0).
Proof.
  revert i. induction l as [|z l IH]; intros i Hi; [done|].
  destruct i as [|i]; simpl in Hi.
  - injection Hi as ->. change (<[0%nat := y]> (x :: l)) with (y :: l).
    rewrite !executing_cons. lia.
  - change (<[S i := y]> (z :: l)) with (z :: <[i := y]> l).
    rewrite !executing_cons. specialize (IH i Hi). lia.
Qed.

Lemma init_pool_ok workers p :
  AsyncPoolExecutor_init workers = Some p →
  pool_ok p ∧ workers = max_workers p.
Proof.
  unfold AsyncPoolExecutor_init. case_bool_decide as Hneg; [done|].
  intros [= <-]. split; [|done]. split; simpl.
  - unfold executing. simpl. lia.
  - lia.
  - intros i. split; [by intros ?%not_elem_of_empty|done].
Qed.

Lemma pool_step_ok p ev p' :
  pool_ok p → pool_step p ev = Some p' →
  pool_ok p' ∧ max_workers p' = max_workers p.
Proof.
  intros [Hperm Hsem Hact] Hstep. destruct ev as [|i|i o]; simpl in Hstep.
  - injection Hstep as <-. split; [|done]. split; simpl.
    + unfold executing in *. simpl. rewrite executing_app. simpl. lia.
    + done.
    + intros i. rewrite Hact. split.
      * intros Hi. rewrite lookup_app_l; [done|]. by eapply lookup_lt_Some.
      * intros Hi. apply lookup_app_Some in Hi as [Hi|[_ Hi]]; [done|].
        apply list_lookup_singleton_Some in Hi as [_ Hi]. done.
  - destruct (submits p !! i) as [[| |o]|] eqn:Hi; try done.
    case_bool_decide as Hfree; [|done]. injection Hstep as <-.
    split; [|done]. split; simpl.
    + unfold executing in *. simpl.
      rewrite (executing_insert _ i AtAcquire) by done. simpl. lia.
    + lia.
    + intros j. rewrite elem_of_union, elem_of_singleton, Hact.
      destruct (decide (i = j)) as [<-|Hne].
      * rewrite list_lookup_insert_eq by (by eapply lookup_lt_Some). naive_solver.
      * rewrite list_lookup_insert_ne by done. naive_solver.
  - destruct (submits p !! i) as [[| |o']|] eqn:Hi; try done.
    injection Hstep as <-. split; [|done]. split; simpl.
    + unfold executing in *. simpl.
      rewrite (executing_insert _ i AwaitingTask) by done. simpl. lia.
    + lia.
    + intros j. rewrite elem_of_difference, elem_of_singleton, Hact.
      destruct (decide (i = j)) as [<-|Hne].
      * rewrite list_lookup_insert_eq by (by eapply lookup_lt_Some). naive_solver.
      * rewrite list_lookup_insert_ne by done. naive_solver.
Qed.

Lemma pool_run_ok p evs p' :
  pool_ok p → pool_run p evs = Some p' →
  pool_ok p' ∧ max_workers p' = max_workers p.
Proof.
  revert p. induction evs as [|ev evs IH]; intros p Hok Hrun; simpl in Hrun.
  - by injection Hrun as <-.
  - destruct (pool_step p ev) as [p1|] eqn:Hstep; [|done].
    destruct (pool_step_ok p ev p1 Hok Hstep) as [Hok1 Hmax1].
    destruct (IH p1 Hok1 Hrun) as [? ->]. done.
Qed.

Lemma executing_nonneg p : 0 ≤ executing p.
Proof. unfold executing. lia. Qed.

(** C5.  In every state an executor reaches, the number of task bodies
    that are executing is at most [max_workers]: the counter of the
    semaphore and the executing tasks add up to [max_workers], and the
    active tasks are the executing ones.  A call of [submit] starts its
    task only by taking a permit that is free, and the end of its task,
    with a result or with an exception, gives the permit back. *)
Theorem pool_never_exceeds_max_workers (workers : Z)
    (p0 p : AsyncPoolExecutor) (evs : list pool_event) :
  AsyncPoolExecutor_init workers = Some p0 →
  pool_run p0 evs = Some p →
  executing p ≤ workers
  ∧ semaphore p + executing p = workers
  ∧ 0 ≤ semaphore p
  ∧ (∀ i, i ∈ active_tasks p ↔ submits p !! i = Some AwaitingTask)
  ∧ (∀ i p', pool_step p (EvAcquire i) = Some p' →
       0 < semaphore p
       ∧ semaphore p' = semaphore p - 1
       ∧ executing p' = executing p + 1
       ∧ submits p' !! i = Some AwaitingTask)
  ∧ (∀ i o p', pool_step p (EvFinish i o) = Some p' →
       submits p !! i = Some AwaitingTask
       ∧ semaphore p' = semaphore p + 1
       ∧ executing p' = executing p - 1
       ∧ submits p' !! i = Some (Finished o)).
Proof.
  intros Hinit Hrun.
  destruct (init_pool_ok workers p0 Hinit) as [Hok0 Hw].
  destruct (pool_run_ok p0 evs p Hok0 Hrun) as [[Hperm Hsem Hact] Hmax].
  rewrite <- Hw in Hmax. rewrite Hmax in Hperm.
  pose proof (executing_nonneg p).
  split_and!; [lia|done|done|done| |].
  - intros i p' Hstep. simpl in Hstep.
    destruct (submits p !! i) as [[| |o]|] eqn:Hi; try done.
    case_bool_decide as Hfree; [|done]. injection Hstep as <-.
    unfold executing. simpl.
    rewrite (executing_insert _ i AtAcquire) by done. simpl.
    rewrite list_lookup_insert_eq by (by eapply lookup_lt_Some).
    split_and!; [done|done|lia|done].
  - intros i o p' Hstep. simpl in Hstep.
    destruct (submits p !! i) as [[| |o']|] eqn:Hi; try done.
    injection Hstep as <-. unfold executing. simpl.
    rewrite (executing_insert _ i AwaitingTask) by done. simpl.
    rewrite list_lookup_insert_eq by (by eapply lookup_lt_Some).
    split_and!; [done|done|lia|done].
Qed.

Lemma pool_never_exceeds_max_workers_witness :
  let p0 := mkPool 2 2 ∅ [] in
  let evs := [EvSubmit; EvSubmit; EvSubmit; EvAcquire 0; EvAcquire 1;
              EvFinish 0 (Raises (UserException "OSError" [])); EvAcquire 2] in
  let p := mkPool 2 0 ({[2%nat]} ∪ (({[1%nat]} ∪ ({[0%nat]} ∪ ∅)) ∖ {[0%nat]}))
             [Finished (Raises (UserException "OSError" []));
              AwaitingTask; AwaitingTask] in
  executing p ≤ 2
  ∧ semaphore p + executing p = 2
  ∧ 0 ≤ semaphore p
  ∧ (∀ i, i ∈ active_tasks p ↔ submits p !! i = Some AwaitingTask)
  ∧ (∀ i p', pool_step p (EvAcquire i) = Some p' →
       0 < semaphore p
       ∧ semaphore p' = semaphore p - 1
       ∧ executing p' = executing p + 1
       ∧ submits p' !! i = Some AwaitingTask)
  ∧ (∀ i o p', pool_step p (EvFinish i o) = Some p' →
       submits p !! i = Some AwaitingTask
       ∧ semaphore p' = semaphore p + 1
       ∧ executing p' = executing p - 1
       ∧ submits p' !! i = Some (Finished o)).
Proof.
  intros p0 evs p.
  apply (pool_never_exceeds_max_workers 2 p0 p evs); reflexivity.
Defined.

(** * More about the cache *)

(** The access order and the dictionary name the same keys in every state
    a cache reaches: a key is in the list exactly when it is stored, no
    key is listed twice, and the list is as long as the dictionary is
    large. *)
Theorem access_order_lists_the_stored_keys (max_size max_memory_mb default_ttl : Z)
    (ops : list cache_op) :
  let c := run_ops (LRUCache_init max_size max_memory_mb default_ttl) ops in
  NoDup (_access_order c)
  ∧ (∀ k, k ∈ _access_order c ↔ is_Some (_cache c !! k))
  ∧ length (_access_order c) = size (_cache c).
Proof.
  intros c.
  assert (order_ok c) as [Hnd Hkeys] by apply run_ops_order_ok, init_order_ok.
  split_and!; [done|done|].
  rewrite <- size_dom, <- (size_list_to_set (C := gset string)) by done.
  f_equal. apply set_eq. intros k.
  rewrite elem_of_list_to_set, elem_of_dom. apply Hkeys.
Qed.



(** [delete] answers whether the key was stored.  Afterwards the key is
    gone from the dictionary, every other entry is as before, the memory
    counter has dropped by the size of the deleted entry, no counter of
    hits, misses or evictions has moved, and a [get] of the key misses.
    Deleting an absent key changes nothing. *)
Theorem delete_removes_one_entry (c : LRUCache) (key : string) :
  let r := LRUCache_delete c key in
  (r.1 = true ↔ is_Some (_cache c !! key))
  ∧ _cache r.2 !! key = None
  ∧ (∀ k, k ≠ key → _cache r.2 !! k = _cache c !! k)
  ∧ _current_memory r.2
    = _current_memory c - from_option size_bytes 0 (_cache c !! key)
  ∧ hits r.2 = hits c ∧ misses r.2 = misses c ∧ evictions r.2 = evictions c
  ∧ (∀ now, (LRUCache_get r.2 key now).1 = PyNone
            ∧ misses (LRUCache_get r.2 key now).2 = misses c + 1)
  ∧ (_cache c !! key = None → r.2 = c).
Proof.
  intros r. subst r. unfold LRUCache_delete.
  destruct (_cache c !! key) as [entry|] eqn:Hk.
  - rewrite bool_decide_eq_true_2 by eauto. cbn [fst snd].
    destruct (remove_entry_counters c key) as (Hh & Hm & He).
    assert (_cache (_remove_entry c key) !! key = None) as Hgone.
    { rewrite remove_entry_cache. apply lookup_delete_eq. }
    split_and!; try done.
    + intros k Hne. rewrite remove_entry_cache. by apply lookup_delete_ne.
    + rewrite remove_entry_current_memory, Hk. simpl. lia.
    + intros now. rewrite get_absent by done. simpl. by rewrite Hm.
  - rewrite bool_decide_eq_false_2 by (by intros [? ?]). cbn [fst snd].
    split_and!; try done; try (simpl; lia).
    all: try (split; [done|by intros [? ?]]).
    intros now. by rewrite get_absent.
Qed.

Lemma remove_entries_evictions c keys :
  evictions (foldl _remove_entry c keys) = evictions c.
Proof.
  revert c. induction keys as [|k keys IH]; intros c; simpl; [done|].
  rewrite IH. by destruct (remove_entry_counters c k) as (_ & _ & ->).
Qed.

(** Only [get] moves [hits] and [misses], and only [set] moves
    [evictions]: an expired entry that [get] or [cleanup_expired] removes
    and an entry that [delete] or [clear] removes are no evictions. *)
Theorem counters_move_only_where_they_should (c : LRUCache) (op : cache_op) :
  (is_get op = false →
     hits (run_op c op) = hits c ∧ misses (run_op c op) = misses c)
  ∧ (match op with OpSet _ _ _ _ => False | _ => True end →
     evictions (run_op c op) = evictions c).
Proof.
  split.
  - intros Hop. destruct op as [key now|key value ttl now|key| |now];
      try done; cbn [run_op].
    + apply set_counters.
    + unfold LRUCache_delete. case_bool_decide; simpl; [|done].
      by destruct (remove_entry_counters c key) as (-> & -> & _).
    + unfold LRUCache_cleanup_expired. cbn [snd].
      match goal with |- context [foldl _remove_entry c ?l] =>
        by destruct (remove_entries_counters c l) as (-> & -> & _) end.
  - intros Hop. destruct op as [key now|key value ttl now|key| |now];
      try done; cbn [run_op].
    + unfold LRUCache_get. destruct (_cache c !! key) as [entry|]; [|done].
      destruct (is_expired entry now); simpl; [|done].
      by destruct (remove_entry_counters c key) as (_ & _ & ->).
    + unfold LRUCache_delete. case_bool_decide; simpl; [|done].
      by destruct (remove_entry_counters c key) as (_ & _ & ->).
    + unfold LRUCache_cleanup_expired. cbn [snd]. apply remove_entries_evictions.
Qed.

Lemma counters_move_only_where_they_should_witness :
  let c := LRUCache_set (LRUCache_init 2 1 60) "a" (PyInt 1) None 0 in
  (is_get (OpCleanupExpired 70000000) = false →
     hits (run_op c (OpCleanupExpired 70000000)) = hits c
     ∧ misses (run_op c (OpCleanupExpired 70000000)) = misses c)
  ∧ (True → evictions (run_op c (OpCleanupExpired 70000000)) = evictions c).
Proof.
  exact (counters_move_only_where_they_should
           (LRUCache_set (LRUCache_init 2 1 60) "a" (PyInt 1) None 0)
           (OpCleanupExpired 70000000)).
Defined.

Lemma remove_entries_lookup c keys k :
  _cache (foldl _remove_entry c keys) !! k
  = if decide (k ∈ keys) then None else _cache c !! k.
Proof.
  revert c. induction keys as [|k0 keys IH]; intros c; cbn [foldl].
  - destruct (decide (k ∈ [])) as [Hin|_]; [|done]. by apply elem_of_nil in Hin.
  - rewrite IH, remove_entry_cache.
    destruct (decide (k ∈ keys)) as [Hin|Hnin];
      destruct (decide (k ∈ k0 :: keys)) as [Hin'|Hnin']; try done.
    + exfalso. apply Hnin'. apply elem_of_cons. by right.
    + apply elem_of_cons in Hin' as [->|?]; [|done]. apply lookup_delete_eq.
    + apply lookup_delete_ne. intros ->. apply Hnin'. apply elem_of_cons. by left.
Qed.

Lemma expired_keys_spec (m : gmap string CacheEntry) now k :
  k ∈ fst <$> filter (fun kv => is_expired kv.2 now = true) (map_to_list m)
  ↔ ∃ e, m !! k = Some e ∧ is_expired e now = true.
Proof.
  rewrite list_elem_of_fmap. split.
  - intros ([k' e] & -> & Hin). apply list_elem_of_filter in Hin as [Hexp Hin].
    apply elem_of_map_to_list in Hin. eauto.
  - intros (e & Hk & Hexp). exists (k, e). split; [done|].
    apply list_elem_of_filter. split; [done|]. by apply elem_of_map_to_list.
Qed.

Lemma cleanup_expired_lookup c now k :
  _cache (LRUCache_cleanup_expired c now).2 !! k
  = match _cache c !! k with
    | Some e => if is_expired e now then None else Some e
    | None => None
    end.
Proof.
  unfold LRUCache_cleanup_expired. cbn [snd]. rewrite remove_entries_lookup.
  destruct (decide _) as [Hin|Hnin].
  - apply expired_keys_spec in Hin as (e & -> & ->). done.
  - destruct (_cache c !! k) as [e|] eqn:Hk; [|done].
    destruct (is_expired e now) eqn:Hexp; [|done].
    exfalso. apply Hnin. apply expired_keys_spec. eauto.
Qed.

(** [cleanup_expired] removes the expired entries and only them: an entry
    stays, unchanged, exactly when it has not expired.  The number it
    returns is the number of entries gone; a second call at the same time
    finds nothing and returns 0.  What the cache keeps true stays true. *)
Theorem cleanup_expired_removes_the_expired (c : LRUCache) (now : Z) :
  let r := LRUCache_cleanup_expired c now in
  (∀ k e, _cache r.2 !! k = Some e
          ↔ _cache c !! k = Some e ∧ is_expired e now = false)
  ∧ r.1 = Z.of_nat (size (_cache c)) - Z.of_nat (size (_cache r.2))
  ∧ LRUCache_cleanup_expired r.2 now = (0, r.2)
  ∧ (memory_ok c → memory_ok r.2)
  ∧ (order_ok c → order_ok r.2).
Proof.
  intros r.
  assert (∀ k e, _cache r.2 !! k = Some e
                 ↔ _cache c !! k = Some e ∧ is_expired e now = false) as Hkeep.
  { intros k e. subst r. rewrite cleanup_expired_lookup.
    destruct (_cache c !! k) as [e'|]; [|split; [done|by intros [? _]]].
    destruct (is_expired e' now) eqn:Hexp.
    - split; [done|]. intros [[= ->] ?]. congruence.
    - split; [by intros [= ->]|by intros [? _]]. }
  split_and!.
  - done.
  - assert (_cache r.2 = filter (fun kv => is_expired kv.2 now = false) (_cache c))
      as Hfilter.
    { apply map_eq. intros k. apply option_eq. intros e.
      rewrite Hkeep, map_lookup_filter_Some. done. }
    rewrite Hfilter. subst r. unfold LRUCache_cleanup_expired. cbn [fst].
    rewrite length_fmap, map_filter_alt.
    rewrite <- !length_map_to_list.
    rewrite map_to_list_to_map.
    2:{ eapply sublist_NoDup; [apply (NoDup_fst_map_to_list (_cache c))|].
        apply fmap_sublist, sublist_filter. }
    generalize (map_to_list (_cache c)). intros l.
    induction l as [|[k e] l IH]; simpl; [done|].
    rewrite !filter_cons. simpl.
    destruct (is_expired e now) eqn:Hexp.
    + rewrite decide_True by done. rewrite decide_False by done. simpl. lia.
    + rewrite decide_False by done. rewrite decide_True by done. simpl. lia.
  - unfold LRUCache_cleanup_expired at 1.
    assert (filter (fun kv => is_expired kv.2 now = true) (map_to_list (_cache r.2)) = [])
      as ->; [|done].
    destruct (filter _ _) as [|[k e] l] eqn:Hf; [done|]. exfalso.
    assert ((k, e) ∈ filter (fun kv => is_expired kv.2 now = true)
                       (map_to_list (_cache r.2))) as Hin.
    { rewrite Hf. apply elem_of_cons. by left. }
    apply list_elem_of_filter in Hin as [Hexp Hin]. simpl in Hexp.
    apply elem_of_map_to_list, Hkeep in Hin as [_ Hno]. congruence.
  - intros Hm. by apply remove_entries_memory_ok.
  - intros Ho. by apply remove_entries_order_ok.
Qed.




(** * More about sizes *)

Lemma utf8_width_bounds cp w : utf8_width cp = Some w → 1 ≤ w ≤ 4.
Proof. unfold utf8_width. repeat case_match; intros [= <-]; lia. Qed.

Lemma utf8_len_bounds s n :
  utf8_len s = Some n → Z.of_nat (length s) ≤ n ≤ 4 * Z.of_nat (length s).
Proof.
  revert n. induction s as [|cp s IH]; simpl; intros n.
  - intros [= <-]. lia.
  - destruct (utf8_width cp) as [w|] eqn:Hw; [|done].
    destruct (utf8_len s) as [m|]; [|done].
    intros [= <-]. apply utf8_width_bounds in Hw. specialize (IH m eq_refl). lia.
Qed.

Lemma utf8_len_None s :
  utf8_len s = None ↔ ∃ cp, cp ∈ s ∧ (0xD800 ≤ cp < 0xE000)%N.
Proof.
  induction s as [|cp s IH]; simpl.
  - split; [done|]. intros (cp & Hin & _). by apply elem_of_nil in Hin.
  - assert (utf8_width cp = None ↔ (0xD800 ≤ cp < 0xE000)%N) as Hw.
    { unfold utf8_width. repeat case_match; split; try done; try lia;
        repeat match goal with H : (_ <? _)%N = _ |- _ =>
          first [apply N.ltb_lt in H | apply N.ltb_ge in H] end; lia. }
    destruct (utf8_width cp) as [w|] eqn:Ew.
    + destruct (utf8_len s) as [m|] eqn:Em.
      * split; [done|]. intros (cp' & Hin & Hs).
        apply elem_of_cons in Hin as [->|Hin].
        -- apply Hw in Hs. done.
        -- assert (Some m = None) as Hn by (apply IH; eauto). done.
      * split; [|done]. intros _.
        destruct IH as [IH _]. destruct (IH eq_refl) as (cp' & Hin & Hs).
        exists cp'. split; [|done]. apply elem_of_cons. by right.
    + split; [|done]. intros _. exists cp. split; [apply elem_of_cons; by left|].
      by apply Hw.
Qed.

Lemma py_sum_app l1 l2 : py_sum (l1 ++ l2) = py_sum l1 + py_sum l2.
Proof. induction l1 as [|x l1 IH]; simpl; [done|]. unfold py_sum in *. lia. Qed.

Lemma py_sum_elem (l : list Z) x :
  Forall (fun n => 0 ≤ n) l → x ∈ l → x ≤ py_sum l.
Proof.
  induction 1 as [|y l Hy Hl IH]; intros Hin; [by apply elem_of_nil in Hin|].
  pose proof (py_sum_nonneg l Hl). simpl. unfold py_sum in *.
  apply elem_of_cons in Hin as [->|Hin]; [lia|]. specialize (IH Hin). lia.
Qed.

(** What the estimate of a size promises.  It is never negative.  A string
    of [n] code points counts between [n] and [4 n] bytes, exactly [n] when
    it is ASCII, and 1024 when it holds a surrogate, which cannot be
    encoded.  A list counts 64 more than its elements together, so at
    least 64 more than any one of them, and joining two lists adds their
    estimates up to the overhead counted twice; an entry of a dictionary
    counts with its key and its value. *)
Theorem estimate_size_grows_with_content :
  (∀ obj, 0 ≤ _estimate_size obj)
  ∧ (∀ s n, utf8_len s = Some n →
       _estimate_size (PyStr s) = n
       ∧ Z.of_nat (length s) ≤ n ≤ 4 * Z.of_nat (length s))
  ∧ (∀ s, Forall (fun cp => (cp < 128)%N) s →
       _estimate_size (PyStr s) = Z.of_nat (length s))
  ∧ (∀ s cp, cp ∈ s → (0xD800 ≤ cp < 0xE000)%N → _estimate_size (PyStr s) = 1024)
  ∧ (∀ items item, item ∈ items →
       _estimate_size item + 64 ≤ _estimate_size (PyList items))
  ∧ (∀ l1 l2, _estimate_size (PyList (l1 ++ l2))
              = _estimate_size (PyList l1) + _estimate_size (PyList l2) - 64)
  ∧ (∀ items k v, (k, v) ∈ items →
       _estimate_size k + _estimate_size v + 64 ≤ _estimate_size (PyDict items)).
Proof.
  split_and!.
  - apply estimate_size_nonneg.
  - intros s n Hn. simpl. rewrite Hn. split; [done|]. by apply utf8_len_bounds.
  - intros s Hascii. simpl.
    assert (utf8_len s = Some (Z.of_nat (length s))) as ->; [|done].
    induction Hascii as [|cp s Hcp _ IH]; [done|]. simpl.
    unfold utf8_width. apply N.ltb_lt in Hcp. rewrite Hcp, IH. f_equal. lia.
  - intros s cp Hin Hs. simpl.
    assert (utf8_len s = None) as ->; [|done]. apply utf8_len_None. eauto.
  - intros items item Hin. simpl.
    assert (_estimate_size item ≤ py_sum (map _estimate_size items)); [|lia].
    apply py_sum_elem.
    + apply Forall_forall. intros n Hn. apply list_elem_of_In in Hn.
      apply list_elem_of_fmap in Hn as (o & -> & _). apply estimate_size_nonneg.
    + apply list_elem_of_fmap. eauto.
  - intros l1 l2. simpl. rewrite map_app, py_sum_app. lia.
  - intros items k v Hin. simpl.
    match goal with |- _ ≤ py_sum ?l + 64 =>
      assert (_estimate_size k + _estimate_size v ≤ py_sum l); [|lia] end.
    apply py_sum_elem.
    + apply Forall_forall. intros n Hn. apply list_elem_of_In in Hn.
      apply list_elem_of_fmap in Hn as ([k' v'] & -> & _).
      pose proof (estimate_size_nonneg k'). pose proof (estimate_size_nonneg v'). lia.
    + apply list_elem_of_fmap. exists (k, v). done.
Qed.

(** * More about the monitor *)

Lemma operation_keys_spec seen samples :
  NoDup seen →
  NoDup (operation_keys seen samples)
  ∧ ∀ name, name ∈ operation_keys seen samples
            ↔ name ∈ seen ∨ ∃ m, m ∈ samples ∧ operation_name m = name.
Proof.
  revert seen. induction samples as [|m samples IH]; intros seen Hnd; simpl.
  - split; [done|]. intros name. split; [by left|].
    intros [?|(m & Hin & _)]; [done|]. by apply elem_of_nil in Hin.
  - case_bool_decide as Hseen.
    + destruct (IH seen Hnd) as [Hnd' Hin']. split; [done|].
      intros name. rewrite Hin'. split.
      * intros [?|(m' & Hm' & Hn)]; [by left|]. right. exists m'.
        split; [|done]. apply elem_of_cons. by right.
      * intros [?|(m' & Hm' & Hn)]; [by left|].
        apply elem_of_cons in Hm' as [->|Hm']; [left; congruence|]. right. eauto.
    + assert (NoDup (seen ++ [operation_name m])) as Hnd1.
      { apply list.NoDup_app. split_and!; [done| |apply NoDup_singleton].
        intros x Hx Hx'. apply list_elem_of_singleton in Hx' as ->. done. }
      destruct (IH _ Hnd1) as [Hnd' Hin']. split; [done|].
      intros name. rewrite Hin', elem_of_app, list_elem_of_singleton. split.
      * intros [[?| ->]|(m' & Hm' & Hn)]; [by left| |].
        -- right. exists m. split; [apply elem_of_cons; by left|done].
        -- right. exists m'. split; [apply elem_of_cons; by right|done].
      * intros [?|(m' & Hm' & Hn)]; [left; by left|].
        apply elem_of_cons in Hm' as [->|Hm']; [left; by right|]. right. eauto.
Qed.

Lemma py_sum_fmap_add {A} (f g : A → Z) (l : list A) :
  py_sum ((fun x => f x + g x) <$> l) = py_sum (f <$> l) + py_sum (g <$> l).
Proof. induction l as [|x l IH]; [done|]. rewrite !fmap_cons. unfold py_sum in *. simpl. lia. Qed.

Lemma py_sum_indicator (x : string) (names : list string) :
  NoDup names →
  py_sum ((fun n => if decide (x = n) then 1 else 0) <$> names)
  = if decide (x ∈ names) then 1 else 0.
Proof.
  induction 1 as [|n names Hn Hnd IH].
  - rewrite decide_False; [done|]. apply not_elem_of_nil.
  - rewrite fmap_cons. change (py_sum (?a :: ?l)) with (a + py_sum l). rewrite IH.
    destruct (decide (x = n)) as [->|Hne].
    + rewrite (decide_False (P := n ∈ names)) by done.
      rewrite decide_True; [done|]. apply elem_of_cons. by left.
    + destruct (decide (x ∈ names)) as [Hin|Hnin].
      * rewrite decide_True; [done|]. apply elem_of_cons. by right.
      * rewrite decide_False; [done|]. intros [?|?]%elem_of_cons; done.
Qed.

(** Every sample is counted under exactly one of the names of a list that
    has its name once. *)
Lemma counts_by_name_add_up (names : list string) (samples : list PerformanceMetrics) :
  NoDup names →
  (∀ m, m ∈ samples → operation_name m ∈ names) →
  py_sum ((fun name =>
             Z.of_nat (length (filter (fun m => operation_name m = name) samples)))
          <$> names)
  = Z.of_nat (length samples).
Proof.
  intros Hnd. induction samples as [|m samples IH]; intros Hall.
  - clear. induction names as [|n names IHn]; [done|].
    rewrite fmap_cons. change (py_sum (?a :: ?l)) with (a + py_sum l).
    by rewrite IHn.
  - transitivity
      (py_sum ((fun name =>
                  (if decide (operation_name m = name) then 1 else 0)
                  + Z.of_nat (length (filter (fun m' => operation_name m' = name) samples)))
               <$> names)).
    + f_equal. apply list_fmap_ext. intros _ name _. rewrite filter_cons.
      destruct (decide (operation_name m = name)); simpl; lia.
    + rewrite py_sum_fmap_add, py_sum_indicator by done.
      rewrite IH.
      * rewrite decide_True; [simpl; lia|]. apply Hall. apply elem_of_cons. by left.
      * intros m' Hm'. apply Hall. apply elem_of_cons. by right.
Qed.

Lemma true_div_ratio a n :
  0 ≤ a ≤ n → 0 < n → (0 ≤ true_div a n ∧ true_div a n ≤ 1)%Qc.
Proof.
  intros Ha Hn. unfold true_div.
  assert (0 < Qc_of_Z n)%Qc as Hpos.
  { pose proof (proj1 (Z2Qc_inj_lt 0 n) Hn) as H. by rewrite Z2Qc_inj_0 in H. }
  assert (Qc_of_Z n ≠ 0%Qc) as Hne.
  { intros H. by apply Qclt_not_eq in Hpos. }
  assert (Qc_of_Z a / Qc_of_Z n * Qc_of_Z n = Qc_of_Z a)%Qc as Hmul.
  { rewrite Qcmult_comm. by apply Qcmult_div_r. }
  split.
  - apply (Qcmult_lt_0_le_reg_r _ _ (Qc_of_Z n)); [done|].
    rewrite Hmul, Qcmult_0_l.
    pose proof (proj1 (Z2Qc_inj_le 0 a) (proj1 Ha)) as H. by rewrite Z2Qc_inj_0 in H.
  - apply (Qcmult_lt_0_le_reg_r _ _ (Qc_of_Z n)); [done|].
    rewrite Hmul, Qcmult_1_l. exact (proj1 (Z2Qc_inj_le a n) (proj2 Ha)).
Qed.

(** The statistics count samples.  [get_operation_stats] reports under
    [count] how many stored samples carry the name, takes its short form
    exactly when none does, and reports a cache hit rate between 0 and 1.
    [get_overall_stats] lists under [operations] each name that occurs,
    once, counts them under [unique_operations], and its
    [total_operations] is the sum of the counts of the listed names; for a
    monitor without samples it has [total_operations] alone. *)
Theorem statistics_count_the_samples (pm : PerformanceMonitor) :
  let count := fun name =>
    Z.of_nat (length (filter (fun m => operation_name m = name) (metrics pm))) in
  (∀ name, dict_get (get_operation_stats pm name) "count"
           = Some (OpNum (PyI (count name))))
  ∧ (∀ name, (∀ m, m ∈ metrics pm → operation_name m ≠ name)
             ↔ get_operation_stats pm name
               = [("operation", OpText name); ("count", OpNum (PyI 0))]%string)
  ∧ (∀ name, 0 < count name →
       ∃ rate, dict_get (get_operation_stats pm name) "cache_hit_rate"
               = Some (OpNum (PyF rate))
               ∧ (0 ≤ rate ∧ rate ≤ 1)%Qc)
  ∧ (metrics pm = [] →
       get_overall_stats pm = [("total_operations", StatNum (PyI 0))]%string)
  ∧ (metrics pm ≠ [] →
       ∃ names,
         dict_get (get_overall_stats pm) "operations" = Some (StatNames names)
         ∧ NoDup names
         ∧ (∀ name, name ∈ names ↔ ∃ m, m ∈ metrics pm ∧ operation_name m = name)
         ∧ dict_get (get_overall_stats pm) "unique_operations"
           = Some (StatNum (PyI (Z.of_nat (length names))))
         ∧ dict_get (get_overall_stats pm) "total_operations"
           = Some (StatNum (PyI (py_sum (count <$> names))))).
Proof.
  intros count. split_and!.
  - intros name. unfold get_operation_stats. subst count. simpl.
    destruct (filter _ (metrics pm)) as [|first others]; reflexivity.
  - intros name. unfold get_operation_stats. split.
    + intros Hnone.
      destruct (filter _ (metrics pm)) as [|first others] eqn:Hf; [done|].
      exfalso. assert (first ∈ filter (fun m => operation_name m = name) (metrics pm)) as Hin.
      { rewrite Hf. apply elem_of_cons. by left. }
      apply list_elem_of_filter in Hin as [Hname Hin]. by apply (Hnone first).
    + destruct (filter _ (metrics pm)) as [|first others] eqn:Hf; [|done].
      intros _ m Hin Hname.
      assert (m ∈ filter (fun m => operation_name m = name) (metrics pm)) as Hm.
      { apply list_elem_of_filter. done. }
      rewrite Hf in Hm. by apply elem_of_nil in Hm.
  - intros name Hpos. subst count. simpl in Hpos. unfold get_operation_stats.
    destruct (filter _ (metrics pm)) as [|first others] eqn:Hf; [simpl in Hpos; lia|].
    eexists. split; [reflexivity|].
    apply true_div_ratio; [|lia]. split; [lia|].
    apply inj_le, length_filter.
  - intros Hempty. unfold get_overall_stats. by rewrite Hempty.
  - intros Hne.
    destruct (operation_keys_spec [] (metrics pm)) as [Hnd Hin]; [constructor|].
    exists (operation_keys [] (metrics pm)). unfold get_overall_stats.
    destruct (metrics pm) as [|m0 rest] eqn:Hm; [done|].
    split_and!; try reflexivity.
    + done.
    + intros name. rewrite Hin. split; [|eauto].
      intros [Hnil|?]; [by apply elem_of_nil in Hnil|done].
    + cbn [dict_get]. rewrite decide_True by done. do 3 f_equal.
      subst count. cbn beta. rewrite counts_by_name_add_up; [done|done|].
      intros m Hmin. apply Hin. right. eauto.
Qed.

(** Whatever the capacity, a call of [record_operation] drops samples from
    the old end only, and with a capacity that is not negative the new
    sample is the last one stored. *)
Lemma record_operation_suffix pm name d mu hit md now :
  (∃ dropped,
     metrics pm ++ [mkMetrics name d mu hit now md]
     = dropped ++ metrics (record_operation pm name d mu hit md now))
  ∧ max_metrics (record_operation pm name d mu hit md now) = max_metrics pm
  ∧ (0 ≤ max_metrics pm →
     list.last (metrics (record_operation pm name d mu hit md now))
     = Some (mkMetrics name d mu hit now md)).
Proof.
  unfold record_operation. set (sample := mkMetrics name d mu hit now md).
  case_bool_decide as Hlen; simpl.
  - unfold py_slice_from. split_and!.
    + eexists. symmetry. apply take_drop.
    + done.
    + intros Hcap. rewrite length_app in *. simpl in *.
      rewrite bool_decide_decide. destruct (decide (- max_metrics pm < 0)) as [Hneg|Hzero].
      * rewrite drop_app_le by lia. apply last_snoc.
      * replace (Z.to_nat _) with O by lia. simpl. apply last_snoc.
  - split_and!; [by exists []|done|]. intros _. apply last_snoc.
Qed.

(** The [performance_monitor] wrapper hands on what the function did: the
    value it returned or the exception it raised.  It records one sample
    under the name of the function, with the measured duration and memory,
    [success] telling which of the two happened and [error] the text of
    the exception; the monitor drops samples from the old end only, and
    with a capacity that is not negative the new sample is the last one
    stored. *)
Theorem monitor_wrapper_hands_on_the_outcome (func : pyobj → outcome)
    (func_name : string) (str_exc : pyexc → list N) (monitor : PerformanceMonitor)
    (args : pyobj) (start_time end_time : Qc) (start_memory end_memory now : Z) :
  let r := monitor_wrapper func func_name str_exc monitor args
             start_time end_time start_memory end_memory now in
  r.1 = func args
  ∧ max_metrics r.2 = max_metrics monitor
  ∧ ∃ dropped sample,
      metrics monitor ++ [sample] = dropped ++ metrics r.2
      ∧ operation_name sample = func_name
      ∧ duration sample = (end_time - start_time)%Qc
      ∧ memory_used sample = end_memory - start_memory
      ∧ timestamp sample = now
      ∧ dict_get (metadata sample) "success"
        = Some (PyBool (match func args with Returns _ => true | Raises _ => false end))
      ∧ (∀ e, func args = Raises e →
           dict_get (metadata sample) "error" = Some (PyStr (str_exc e)))
      ∧ (0 ≤ max_metrics monitor → list.last (metrics r.2) = Some sample).
Proof.
  intros r. subst r. unfold monitor_wrapper.
  destruct (func args) as [v|e] eqn:Hf; cbn [fst snd].
  - destruct (record_operation_suffix monitor func_name (end_time - start_time)%Qc
                (end_memory - start_memory) false [("success", PyBool true)]%string now)
      as ((dropped & Hd) & Hmax & Hlast).
    split_and!; [done|done|]. eexists dropped, _. split; [exact Hd|].
    split_and!; try done.
  - destruct (record_operation_suffix monitor func_name (end_time - start_time)%Qc
                (end_memory - start_memory) false
                [("success", PyBool false); ("error", PyStr (str_exc e))]%string now)
      as ((dropped & Hd) & Hmax & Hlast).
    split_and!; [done|done|]. eexists dropped, _. split; [exact Hd|].
    split_and!; try done. by intros e' [= <-].
Qed.

(** * More about the decorator *)





(** * More about the batch processor *)

Lemma process_single_request_done heap r :
  heap !! request_future r ≠ Some Pending →
  _process_single_request heap r = (heap, Some InvalidStateError).
Proof.
  intros Hdone. unfold _process_single_request, set_result, set_exception.
  destruct (heap !! request_future r) as [[| | |]|] eqn:Hf; try done;
    by destruct (request_callback r (request_data r)).
Qed.

Lemma process_single_request_cases heap r :
  (heap !! request_future r = Some Pending
   ∧ _process_single_request heap r
     = (<[request_future r := resolution (request_callback r (request_data r))]> heap,
        None))
  ∨ (heap !! request_future r ≠ Some Pending
     ∧ _process_single_request heap r = (heap, Some InvalidStateError)).
Proof.
  destruct (heap !! request_future r) as [[| | |]|] eqn:Hf.
  - left. split; [done|]. by apply process_single_request_pending.
  - right. split; [done|]. apply process_single_request_done. by rewrite Hf.
  - right. split; [done|]. apply process_single_request_done. by rewrite Hf.
  - right. split; [done|]. apply process_single_request_done. by rewrite Hf.
  - right. split; [done|]. apply process_single_request_done. by rewrite Hf.
Qed.

Lemma run_tasks_write_once heap finishing :
  length (run_tasks heap finishing).1 = length heap
  ∧ (∀ fut st, heap !! fut = Some st → st ≠ Pending →
       (run_tasks heap finishing).1 !! fut = Some st)
  ∧ (∀ e, e ∈ (run_tasks heap finishing).2 → e = InvalidStateError)
  ∧ (∀ r, r ∈ finishing → heap !! request_future r ≠ Some Pending →
       (run_tasks heap finishing).2 ≠ []).
Proof.
  revert heap. induction finishing as [|r rest IH]; intros heap.
  - simpl. split_and!; try done.
    + intros e He. by apply elem_of_nil in He.
    + intros r Hr. by apply elem_of_nil in Hr.
  - cbn [run_tasks].
    destruct (process_single_request_cases heap r) as [[Hp ->]|[Hd ->]].
    + set (heap1 := <[request_future r := _]> heap).
      destruct (IH heap1) as (Hlen & Hkeep & Hesc & Hraise).
      destruct (run_tasks heap1 rest) as [heap2 others]. cbn [fst snd] in *.
      split_and!.
      * rewrite Hlen. subst heap1. apply length_insert.
      * intros fut st Hfut Hst. apply Hkeep; [|done]. subst heap1.
        rewrite list_lookup_insert_ne; [done|]. intros <-. congruence.
      * done.
      * intros r' Hr' Hdone. apply elem_of_cons in Hr' as [->|Hr']; [done|].
        apply (Hraise r' Hr'). subst heap1.
        destruct (decide (request_future r = request_future r')) as [Heq|Hne].
        -- rewrite Heq, list_lookup_insert_eq.
           ++ destruct (request_callback r (request_data r)); simpl; congruence.
           ++ rewrite <- Heq. by eapply lookup_lt_Some.
        -- by rewrite list_lookup_insert_ne.
    + destruct (IH heap) as (Hlen & Hkeep & Hesc & Hraise).
      destruct (run_tasks heap rest) as [heap2 others]. cbn [fst snd] in *.
      split_and!; try done.
      intros e He. apply elem_of_cons in He as [->|He]; [done|]. by apply Hesc.
Qed.

(** A future is written once.  A task whose future is already done, as
    after the caller gave up and cancelled it, leaves the future as it is;
    its [InvalidStateError] escapes and is what [gather] sees, and it is
    the only exception that ever escapes a task.  The other requests of
    the batch, whose futures are distinct and pending, still receive their
    own outcome. *)
Theorem done_futures_are_not_overwritten (heap : future_heap)
    (finishing : list request) :
  let done := run_tasks heap finishing in
  length done.1 = length heap
  ∧ (∀ fut st, heap !! fut = Some st → st ≠ Pending → done.1 !! fut = Some st)
  ∧ (∀ e, e ∈ done.2 → e = InvalidStateError)
  ∧ (∀ r, r ∈ finishing → heap !! request_future r ≠ Some Pending → done.2 ≠ [])
  ∧ (NoDup (request_future <$> finishing) →
     ∀ r, r ∈ finishing → heap !! request_future r = Some Pending →
          done.1 !! request_future r
          = Some (resolution (request_callback r (request_data r)))).
Proof.
  intros done.
  destruct (run_tasks_write_once heap finishing) as (Hlen & Hkeep & Hesc & Hraise).
  split_and!; try done.
  subst done. clear. revert heap.
  induction finishing as [|r0 rest IH]; intros heap Hnd r Hr Hp.
  { by apply elem_of_nil in Hr. }
  rewrite fmap_cons in Hnd. apply list.NoDup_cons in Hnd as [Hr0 Hnd].
  cbn [run_tasks].
  destruct (process_single_request_cases heap r0) as [[Hp0 ->]|[Hd0 ->]].
  - set (heap1 := <[request_future r0 := _]> heap).
    specialize (IH heap1 Hnd).
    destruct (run_tasks_write_once heap1 rest) as (_ & Hkeep & _).
    destruct (run_tasks heap1 rest) as [heap2 others]. cbn [fst snd] in *.
    apply elem_of_cons in Hr as [->|Hr].
    + apply Hkeep.
      * subst heap1. apply list_lookup_insert_eq. by eapply lookup_lt_Some.
      * by destruct (request_callback r0 (request_data r0)).
    + apply IH; [done|]. subst heap1. rewrite list_lookup_insert_ne; [done|].
      intros Heq. apply Hr0. rewrite Heq. by apply list_elem_of_fmap_2.
  - specialize (IH heap Hnd).
    destruct (run_tasks heap rest) as [heap2 others]. cbn [fst snd] in *.
    apply elem_of_cons in Hr as [->|Hr]; [done|]. by apply IH.
Qed.

Lemma add_requests_spec bp heap submitted :
  pending_requests (add_requests bp heap submitted).1
  = pending_requests bp
    ++ imap (fun i '(data, callback) => mkRequest data callback (length heap + i))
            submitted
  ∧ (add_requests bp heap submitted).2 = heap ++ replicate (length submitted) Pending
  ∧ _processing (add_requests bp heap submitted).1 = _processing bp
  ∧ batch_size (add_requests bp heap submitted).1 = batch_size bp.
Proof.
  revert bp heap. induction submitted as [|[d cb] rest IH]; intros bp heap.
  - simpl. by rewrite !app_nil_r.
  - cbn [add_requests add_request new_future].
    destruct (IH (mkBatch (batch_size bp)
                    (pending_requests bp ++ [mkRequest d cb (length heap)])
                    (_processing bp)) (heap ++ [Pending]))
      as (-> & -> & -> & ->).
    cbn [pending_requests _processing batch_size].
    split_and!; [|by rewrite <- app_assoc|done|done].
    rewrite <- app_assoc. f_equal. cbn [imap app]. rewrite Nat.add_0_r. f_equal.
    apply imap_ext. intros i [d' cb'] _. simpl. f_equal.
    rewrite length_app. simpl. lia.
Qed.

(** From submission to result.  Requests submitted to a fresh processor
    are queued in the order of their submission, each with a future of its
    own.  When the batch is dispatched, in whatever order the callbacks
    finish, the future of the i-th request holds the outcome of the i-th
    callback on the i-th data; the queue is empty afterwards and
    [_process_batch] raises nothing. *)
Theorem submitted_requests_get_their_own_outcome (size : Z)
    (submitted : list (pyobj * (pyobj → outcome))) (finishing : list request) :
  let queued := add_requests (mkBatch size [] false) [] submitted in
  let done := _process_batch queued.1 queued.2 finishing in
  finishing ≡ₚ pending_requests queued.1 →
  request_data <$> pending_requests queued.1 = submitted.*1
  ∧ request_future <$> pending_requests queued.1 = seq 0 (length submitted)
  ∧ queued.2 = replicate (length submitted) Pending
  ∧ done.1.2 = (fun '(data, callback) => resolution (callback data)) <$> submitted
  ∧ done.2 = None
  ∧ pending_requests done.1.1 = []
  ∧ _processing done.1.1 = false.
Proof.
  intros queued done Hperm.
  destruct (add_requests_spec (mkBatch size [] false) [] submitted)
    as (Hq & Hheap & Hproc & _).
  fold queued in Hq, Hheap, Hproc. cbn [pending_requests app length] in Hq.
  simpl in Hheap, Hproc.
  assert (batch_unresolved queued.2 (pending_requests queued.1)) as Hun.
  { apply (add_requests_unresolved (mkBatch size [] false) []).
    - split; [constructor|]. intros r Hr. by apply elem_of_nil in Hr.
    - intros r Hr. by apply elem_of_nil in Hr. }
  assert (∀ i d cb, submitted !! i = Some (d, cb) →
            pending_requests queued.1 !! i = Some (mkRequest d cb i)) as Hith.
  { intros i d cb Hi. rewrite Hq, list_lookup_imap, Hi. done. }
  assert (batch_unresolved queued.2 finishing) as Hfin.
  { destruct Hun as [Hnd Hpend]. split; [by rewrite Hperm|].
    intros r Hr. apply Hpend. by rewrite <- Hperm. }
  destruct (run_tasks_unresolved queued.2 finishing Hfin) as (Hesc & Hown & _).
  destruct (run_tasks_write_once queued.2 finishing) as (Hlen & _).
  assert (done = (mkBatch (batch_size queued.1) [] false,
                  (run_tasks queued.2 finishing).1,
                  head (run_tasks queued.2 finishing).2)) as Hdone.
  { subst done. unfold _process_batch. rewrite Hproc. cbn [take_snapshot pending_requests].
    destruct (pending_requests queued.1) as [|r0 rest] eqn:Hp.
    - apply Permutation_nil_r in Hperm. subst finishing. done.
    - by destruct (run_tasks queued.2 finishing). }
  rewrite Hdone. cbn [fst snd pending_requests _processing].
  split_and!.
  - rewrite Hq. clear. apply list_eq. intros i.
    rewrite !list_lookup_fmap, list_lookup_imap.
    by destruct (submitted !! i) as [[d cb]|].
  - rewrite Hq. clear. apply list_eq. intros i.
    rewrite list_lookup_fmap, list_lookup_imap.
    destruct (submitted !! i) as [[d cb]|] eqn:Hi; simpl.
    + symmetry. apply lookup_seq. split; [done|]. by eapply lookup_lt_Some.
    + symmetry. apply lookup_seq_ge. by apply lookup_ge_None.
  - done.
  - apply list_eq. intros i. rewrite list_lookup_fmap.
    destruct (submitted !! i) as [[d cb]|] eqn:Hi; simpl.
    + specialize (Hith i d cb Hi).
      assert (mkRequest d cb i ∈ finishing) as Hin.
      { rewrite Hperm. by eapply list_elem_of_lookup_2. }
      apply (Hown _ Hin).
    + apply lookup_ge_None. rewrite Hlen, Hheap, length_replicate.
      by apply lookup_ge_None.
  - by rewrite Hesc.
  - done.
  - done.
Qed.

Lemma submitted_requests_get_their_own_outcome_witness :
  let ok := fun d : pyobj => Returns d in
  let boom := fun _ : pyobj => Raises (UserException "KeyError" []) in
  let submitted := [(PyInt 1, ok); (PyInt 2, boom); (PyInt 3, ok)] in
  let queued := add_requests (mkBatch 10 [] false) [] submitted in
  let done := _process_batch queued.1 queued.2 (reverse (pending_requests queued.1)) in
  request_data <$> pending_requests queued.1 = submitted.*1
  ∧ request_future <$> pending_requests queued.1 = seq 0 (length submitted)
  ∧ queued.2 = replicate (length submitted) Pending
  ∧ done.1.2 = (fun '(data, callback) => resolution (callback data)) <$> submitted
  ∧ done.2 = None
  ∧ pending_requests done.1.1 = []
  ∧ _processing done.1.1 = false.
Proof.
  intros ok boom submitted queued.
  apply (submitted_requests_get_their_own_outcome 10 submitted
           (reverse (pending_requests queued.1))).
  apply reverse_Permutation.
Defined.

(** * More about the pool *)

Lemma sum_list_insert (l : list submit_state) i x y :
  l !! i = Some x →
  (sum_list_with events_left (<[i := y]> l) + events_left x
   = sum_list_with events_left l + events_left y)%nat.
Proof.
  revert i. induction l as [|z l IH]; intros i Hi; [done|].
  destruct i as [|i]; simpl in Hi.
  - injection Hi as ->. change (<[0%nat := y]> (x :: l)) with (y :: l).
    simpl. lia.
  - change (<[S i := y]> (z :: l)) with (z :: <[i := y]> l).
    simpl. specialize (IH i Hi). lia.
Qed.

Lemma find_work (l : list submit_state) :
  (∃ i, l !! i = Some AwaitingTask)
  ∨ ((∀ i, l !! i ≠ Some AwaitingTask) ∧ ∃ i, l !! i = Some AtAcquire)
  ∨ (∀ i s, l !! i = Some s → ∃ o, s = Finished o).
Proof.
  induction l as [|s l IH].
  - right. right. intros i s Hi. by rewrite lookup_nil in Hi.
  - destruct s as [| |o].
    + destruct IH as [[i Hi]|[[Hno [i Hi]]|Hall]].
      * left. by exists (S i).
      * right. left. split; [|by exists O]. intros [|j]; [done|]. apply Hno.
      * right. left. split; [|by exists O]. intros [|j]; [done|].
        simpl. intros Hj. by destruct (Hall j _ Hj).
    + left. by exists O.
    + destruct IH as [[i Hi]|[[Hno [i Hi]]|Hall]].
      * left. by exists (S i).
      * right. left. split; [|by exists (S i)]. intros [|j]; [done|]. apply Hno.
      * right. right. intros [|j] s Hj; simpl in Hj.
        -- injection Hj as <-. eauto.
        -- by apply (Hall j).
Qed.

Lemma executing_none (l : list submit_state) :
  (∀ i, l !! i ≠ Some AwaitingTask) →
  filter (fun s => is_executing s = true) l = [].
Proof.
  induction l as [|s l IH]; intros Hno; [done|].
  rewrite filter_cons. destruct s as [| |o]; simpl.
  - apply IH. intros i. apply (Hno (S i)).
  - by specialize (Hno O).
  - apply IH. intros i. apply (Hno (S i)).
Qed.

Lemma pool_drains (n : nat) (p : AsyncPoolExecutor) :
  pool_ok p → 0 < max_workers p → pool_work p = n →
  ∃ evs p', pool_run p evs = Some p'
            ∧ length evs = n
            ∧ pool_ok p'
            ∧ max_workers p' = max_workers p
            ∧ length (submits p') = length (submits p)
            ∧ ∀ i s, submits p' !! i = Some s → ∃ o, s = Finished o.
Proof.
  revert p. induction n as [|n IH]; intros p Hok Hpos Hwork.
  - exists [], p. split_and!; try done.
    intros i s Hi. unfold pool_work in Hwork.
    assert (events_left s = 0)%nat as Hs.
    { revert i Hi Hwork. generalize (submits p). intros l.
      induction l as [|z l IHl]; intros i Hi Hw; [by rewrite lookup_nil in Hi|].
      simpl in Hw. destruct i as [|i]; simpl in Hi.
      - injection Hi as ->. lia.
      - apply (IHl i); [done|lia]. }
    destruct s; try done. eauto.
  - destruct (find_work (submits p)) as [[i Hi]|[[Hno [i Hi]]|Hall]].
    + (* a running task ends *)
      destruct (pool_step p (EvFinish i (Returns PyNone))) as [p1|] eqn:Hstep;
        [|simpl in Hstep; by rewrite Hi in Hstep].
      destruct (pool_step_ok p _ p1 Hok Hstep) as [Hok1 Hmax1].
      assert (submits p1 = <[i := Finished (Returns PyNone)]> (submits p)) as Hs1.
      { simpl in Hstep. rewrite Hi in Hstep. by injection Hstep as <-. }
      destruct (IH p1 Hok1) as (evs & p' & Hrun & Hlen & Hok' & Hmax' & Hlen' & Hfin).
      * lia.
      * unfold pool_work in *. rewrite Hs1.
        pose proof (sum_list_insert (submits p) i AwaitingTask
                      (Finished (Returns PyNone)) Hi) as H. simpl in H. lia.
      * exists (EvFinish i (Returns PyNone) :: evs), p'. cbn [pool_run]. rewrite Hstep.
        split_and!; try done.
        -- simpl. by rewrite Hlen.
        -- congruence.
        -- rewrite Hlen', Hs1. apply length_insert.
    + (* nothing runs, so a permit is free *)
      destruct Hok as [Hperm Hsem Hact].
      assert (0 < semaphore p) as Hfree.
      { unfold executing in Hperm. rewrite executing_none in Hperm by done.
        simpl in Hperm. lia. }
      destruct (pool_step p (EvAcquire i)) as [p1|] eqn:Hstep.
      2:{ simpl in Hstep. rewrite Hi in Hstep.
          by rewrite bool_decide_eq_true_2 in Hstep. }
      destruct (pool_step_ok p _ p1 (Build_pool_ok p Hperm Hsem Hact) Hstep)
        as [Hok1 Hmax1].
      assert (submits p1 = <[i := AwaitingTask]> (submits p)) as Hs1.
      { simpl in Hstep. rewrite Hi in Hstep.
        rewrite bool_decide_eq_true_2 in Hstep by done. by injection Hstep as <-. }
      destruct (IH p1 Hok1) as (evs & p' & Hrun & Hlen & Hok' & Hmax' & Hlen' & Hfin).
      * lia.
      * unfold pool_work in *. rewrite Hs1.
        pose proof (sum_list_insert (submits p) i AtAcquire AwaitingTask Hi) as H.
        simpl in H. lia.
      * exists (EvAcquire i :: evs), p'. cbn [pool_run]. rewrite Hstep.
        split_and!; try done.
        -- simpl. by rewrite Hlen.
        -- congruence.
        -- rewrite Hlen', Hs1. apply length_insert.
    + exfalso. unfold pool_work in Hwork. revert Hall Hwork.
      generalize (submits p). intros l Hall Hw.
      assert (sum_list_with events_left l = 0)%nat; [|lia]. clear Hw.
      induction l as [|z l IHl]; [done|]. simpl.
      destruct (Hall O z eq_refl) as [o ->]. simpl.
      apply IHl. intros i s Hi. apply (Hall (S i) s Hi).
Qed.

Lemma pool_run_without_permits p evs p' :
  semaphore p = 0 →
  (∀ i s, submits p !! i = Some s → s = AtAcquire) →
  pool_run p evs = Some p' →
  ∀ i s, submits p' !! i = Some s → s = AtAcquire.
Proof.
  revert p. induction evs as [|ev evs IH]; intros p Hsem Hall Hrun; simpl in Hrun.
  - by injection Hrun as <-.
  - destruct (pool_step p ev) as [p1|] eqn:Hstep; [|done].
    destruct ev as [|i|i o]; simpl in Hstep.
    + injection Hstep as <-. refine (IH _ _ _ Hrun); [exact Hsem|]. simpl.
      intros i s Hi. apply lookup_app_Some in Hi as [Hi|[_ Hi]]; [by eapply Hall|].
      by apply list_lookup_singleton_Some in Hi as [_ <-].
    + destruct (submits p !! i) as [[| |o]|]; try done.
      rewrite bool_decide_eq_false_2 in Hstep by lia. done.
    + destruct (submits p !! i) as [[| |o']|] eqn:Hi; try done.
      by specialize (Hall i _ Hi).
Qed.

(** The executor cannot get stuck.  With at least one worker, from every
    state it reaches the calls of [submit] can all be brought to their
    end: there is a run of as many events as the calls have left, after
    which every call has returned, every permit is back, and
    [active_tasks] is empty, so [shutdown] with [wait] returns.  With
    [max_workers = 0] no call ever passes the semaphore. *)
Theorem pool_finishes_what_it_admits (workers : Z)
    (p0 p : AsyncPoolExecutor) (evs : list pool_event) :
  AsyncPoolExecutor_init workers = Some p0 →
  pool_run p0 evs = Some p →
  (0 < workers →
   ∃ more p', pool_run p more = Some p'
              ∧ length more = pool_work p
              ∧ length (submits p') = length (submits p)
              ∧ (∀ i s, submits p' !! i = Some s → ∃ o, s = Finished o)
              ∧ semaphore p' = workers
              ∧ active_tasks p' = ∅)
  ∧ (workers = 0 → ∀ i s, submits p !! i = Some s → s = AtAcquire).
Proof.
  intros Hinit Hrun.
  destruct (init_pool_ok workers p0 Hinit) as [Hok0 Hw].
  destruct (pool_run_ok p0 evs p Hok0 Hrun) as [Hok Hmax].
  rewrite <- Hw in Hmax. split.
  - intros Hpos.
    destruct (pool_drains (pool_work p) p Hok) as
      (more & p' & Hrun' & Hlen & [Hperm Hsem Hact] & Hmax' & Hlen' & Hfin);
      [lia|done|].
    exists more, p'. split_and!; try done.
    + assert (executing p' = 0) as He.
      { unfold executing. rewrite executing_none; [done|].
        intros i Hi. by destruct (Hfin i _ Hi). }
      lia.
    + apply set_eq. intros i. rewrite Hact. split; [|by intros ?%not_elem_of_empty].
      intros Hi. by destruct (Hfin i _ Hi).
  - intros Hzero. apply (pool_run_without_permits p0 evs p); [| |done].
    + unfold AsyncPoolExecutor_init in Hinit.
      case_bool_decide; [done|]. injection Hinit as <-. done.
    + unfold AsyncPoolExecutor_init in Hinit.
      case_bool_decide; [done|]. injection Hinit as <-. simpl.
      intros i s Hi. by rewrite lookup_nil in Hi.
Qed.

Lemma pool_finishes_what_it_admits_witness :
  let p0 := mkPool 1 1 ∅ [] in
  let evs := [EvSubmit; EvSubmit; EvAcquire 1] in
  let p := mkPool 1 0 ({[1%nat]} ∪ ∅) [AtAcquire; AwaitingTask] in
  (0 < 1 →
   ∃ more p', pool_run p more = Some p'
              ∧ length more = pool_work p
              ∧ length (submits p') = length (submits p)
              ∧ (∀ i s, submits p' !! i = Some s → ∃ o, s = Finished o)
              ∧ semaphore p' = 1
              ∧ active_tasks p' = ∅)
  ∧ (1 = 0 → ∀ i s, submits p !! i = Some s → s = AtAcquire).
Proof.
  intros p0 evs p.
  apply (pool_finishes_what_it_admits 1 p0 p evs); reflexivity.
Defined.


(** * Processing in chunks *)

Lemma process_items (l : list pyobj) : process_item <$> l = l.
Proof. induction l as [|x l IH]; [done|]. rewrite fmap_cons, IH. done. Qed.

Lemma chunk_step_take data chunk_size i n :
  0 < chunk_size → 0 ≤ i →
  chunk_step data chunk_size (take (Z.to_nat i) data, n) i
  = (take (Z.to_nat (i + chunk_size)) data,
     if bool_decide (i `mod` (chunk_size * 10) = 0) then S n else n).
Proof.
  intros Hcs Hi. unfold chunk_step. f_equal.
  rewrite process_items. unfold py_slice.
  replace (i + chunk_size - i) with chunk_size by lia.
  rewrite take_take_drop. f_equal. lia.
Qed.

Lemma chunk_loop data chunk_size fuel i n :
  0 < chunk_size → 0 ≤ i →
  Z.of_nat (length data) - i ≤ Z.of_nat fuel →
  (foldl (chunk_step data chunk_size) (take (Z.to_nat i) data, n)
         (range_from fuel i (Z.of_nat (length data)) chunk_size)).1 = data
  ∧ (n ≤ (foldl (chunk_step data chunk_size) (take (Z.to_nat i) data, n)
            (range_from fuel i (Z.of_nat (length data)) chunk_size)).2)%nat.
Proof.
  intros Hcs. revert i n. induction fuel as [|fuel IH]; intros i n Hi Hfuel.
  - simpl. split; [|done]. apply take_ge. lia.
  - cbn [range_from]. case_bool_decide as Hlt.
    + cbn [foldl]. rewrite chunk_step_take by done.
      destruct (IH (i + chunk_size)
                  (if bool_decide (i `mod` (chunk_size * 10) = 0) then S n else n))
        as [H1 H2]; [lia|lia|].
      split; [exact H1|]. etrans; [|exact H2]. case_bool_decide; lia.
    + simpl. split; [|done]. apply take_ge. lia.
Qed.

(** [optimize_for_large_datasets] with a positive chunk size returns the
    data as it got them, every item once and in order, and has called
    [gc.collect] at least once when there were data.  A chunk size of zero
    raises [ValueError]; a negative one processes nothing and returns the
    empty list. *)
Theorem optimize_for_large_datasets_returns_the_data (data : list pyobj)
    (chunk_size : Z) :
  (0 < chunk_size →
   ∃ collections,
     optimize_for_large_datasets data chunk_size = Some (data, collections)
     ∧ (data ≠ [] → (1 ≤ collections)%nat))
  ∧ (chunk_size = 0 → optimize_for_large_datasets data chunk_size = None)
  ∧ (chunk_size < 0 → optimize_for_large_datasets data chunk_size = Some ([], O)).
Proof.
  unfold optimize_for_large_datasets, py_range0. split_and!.
  - intros Hcs. rewrite !bool_decide_eq_false_2 by lia.
    destruct (chunk_loop data chunk_size (Z.to_nat (Z.of_nat (length data))) 0 0)
      as [Hres _]; [done|done|lia|].
    change (take (Z.to_nat 0) data) with (@nil pyobj) in Hres.
    destruct (foldl _ _ _) as [results collections] eqn:Hfold. simpl in Hres. subst.
    exists collections. split; [done|].
    intros Hne. destruct data as [|x data]; [done|].
    rewrite Nat2Z.id in Hfold. cbn [length range_from] in Hfold.
    rewrite bool_decide_eq_true_2 in Hfold by lia. cbn [foldl] in Hfold.
    change ([] : list pyobj) with (take (Z.to_nat 0) (x :: data)) in Hfold.
    rewrite chunk_step_take in Hfold by done.
    rewrite Z.mod_0_l in Hfold by lia.
    rewrite bool_decide_eq_true_2 in Hfold by done.
    destruct (chunk_loop (x :: data) chunk_size (length data) (0 + chunk_size) 1)
      as [_ Hmono]; [done|lia|simpl; lia|].
    cbn [length] in Hmono. rewrite Hfold in Hmono. exact Hmono.
  - intros ->. by rewrite bool_decide_eq_true_2.
  - intros Hneg. rewrite bool_decide_eq_false_2 by lia.
    by rewrite bool_decide_eq_true_2.
Qed.

Lemma optimize_for_large_datasets_returns_the_data_witness :
  (0 < 2 →
   ∃ collections,
     optimize_for_large_datasets [PyInt 1; PyInt 2; PyInt 3] 2
     = Some ([PyInt 1; PyInt 2; PyInt 3], collections)
     ∧ ([PyInt 1; PyInt 2; PyInt 3] ≠ [] → (1 ≤ collections)%nat))
  ∧ (2 = 0 → optimize_for_large_datasets [PyInt 1; PyInt 2; PyInt 3] 2 = None)
  ∧ (2 < 0 → optimize_for_large_datasets [PyInt 1; PyInt 2; PyInt 3] 2 = Some ([], O)).
Proof.
  exact (optimize_for_large_datasets_returns_the_data [PyInt 1; PyInt 2; PyInt 3] 2).
Defined.
